(** * Dump options, chunk planning and X-protocol result sets of the shell

    A shallow embedding of
    - [modules/util/dump/dump_schemas_options.cc]
      ([Dump_schemas_options::unpack_options] and [validate_options]),
    - [modules/mod_mysqlx_resultset.cc]
      ([BaseResult::get_member], [get_warning_count], [fetch_one] and
      [fetch_all] of [RowResult] and [DocResult]),
    together with the parts of the design document that have no source file
    here (chunk planning, the collaborators of the options object); these
    are marked [Modelled from the spec:]. *)

From Stdlib Require Import ZArith Lia Ascii String.
From stdpp Require Import base gmap sets list strings pretty.

Open Scope Z_scope.

(** ** Exceptions and results *)

Module Shcore.

(** The C++ exceptions the modelled code throws or catches.
    [invalid_argument] is what the design document calls a
    ConfigurationError; [runtime_error] is what the exclusion loop catches
    and translates; [logic_error] stands for every other exception class. *)
Inductive exception :=
| invalid_argument (what : string)
| runtime_error (what : string)
| logic_error (what : string).

(** A call either returns or throws. *)
Inductive result (A : Type) :=
| Ok (a : A)
| Throw (e : exception).
Arguments Ok {A} a.
Arguments Throw {A} e.

(** Sequencing: an exception thrown by the first call skips the rest. *)
#[export] Instance result_bind : MBind result := λ A B k r,
  match r with
  | Ok a => k a
  | Throw e => Throw e
  end.

#[export] Instance result_ret : MRet result := λ A a, Ok a.

Definition returns {A} (r : result A) : Prop := ∃ a, r = Ok a.
Definition throws {A} (r : result A) : Prop := ∃ e, r = Throw e.

(** The error is a ConfigurationError ([std::invalid_argument]). *)
Definition is_invalid_argument (e : exception) : bool :=
  match e with invalid_argument _ => true | _ => false end.

End Shcore.
Export Shcore.

(** ** [Dump_schemas_options] *)

Module Dump.

(** [mysqlshdk::utils::Version], built from its textual form. *)
Record Version := mk_Version { version_string : string }.

(** The options object.  [Base] is the state of the [Ddl_dumper_options]
    sub-object that this file never looks into.

    - [m_schemas] is filled by the range constructor from the vector of
      requested schemas;
    - [m_excluded_tables] is indexed with [operator[]] and its values take
      [emplace]: a map from schema to a set of tables;
    - [m_compatibility_options] is a bit set updated with [|=]; an option is
      identified with its mask;
    - [m_mds] is the version recorded by [set_mds_compatibility]. *)
Record Dump_schemas_options (Base : Type) := mk_options {
  m_base : Base;
  m_schemas : gset string;
  m_excluded_tables : gmap string (gset string);
  m_dump_events : bool;
  m_dump_routines : bool;
  m_compatibility_options : Z;
  m_mds : option Version
}.
Arguments mk_options {Base}.
Arguments m_base {Base}.
Arguments m_schemas {Base}.
Arguments m_excluded_tables {Base}.
Arguments m_dump_events {Base}.
Arguments m_dump_routines {Base}.
Arguments m_compatibility_options {Base}.
Arguments m_mds {Base}.

(** The dictionary handed to [unpack_options], already checked for the
    types of its values.  [opt_ddl] gathers the keys read by
    [Ddl_dumper_options::unpack_options]. *)
Record Option_unpacker (DdlOpts : Type) := mk_unpacker {
  opt_ddl : DdlOpts;
  opt_excludeTables : option (list string);
  opt_events : option bool;
  opt_routines : option bool;
  opt_ocimds : option bool;
  opt_compatibility : option (list string)
}.
Arguments mk_unpacker {DdlOpts}.
Arguments opt_ddl {DdlOpts}.
Arguments opt_excludeTables {DdlOpts}.
Arguments opt_events {DdlOpts}.
Arguments opt_routines {DdlOpts}.
Arguments opt_ocimds {DdlOpts}.
Arguments opt_compatibility {DdlOpts}.

(** What [dump_schemas_options.cc] calls but does not define: the base
    class, the identifier splitter of [utils_general.h], the parser of
    compatibility option names, the preset of the [ocimds] mode and the
    [MYSH_VERSION] macro.  [split_schema_and_table] returns what the C++
    function leaves in its two output parameters. *)
Class Collaborators (Base DdlOpts : Type) := {
  Ddl_dumper_options_new : string → Dump_schemas_options Base;
  Ddl_unpack_options :
    DdlOpts → Dump_schemas_options Base → result (Dump_schemas_options Base);
  Ddl_validate_options : Dump_schemas_options Base → result ();
  split_schema_and_table : string → result (string * string);
  to_compatibility_option : string → result Z;
  mds_compatibility_options : Z;
  MYSH_VERSION : string
}.

Section options.
Context {Base DdlOpts : Type} `{!Collaborators Base DdlOpts}.

Abbreviation options := (Dump_schemas_options Base).

Definition set_schemas (s : gset string) (o : options) : options :=
  mk_options (m_base o) s (m_excluded_tables o) (m_dump_events o)
    (m_dump_routines o) (m_compatibility_options o) (m_mds o).

Definition set_excluded_tables (m : gmap string (gset string)) (o : options)
  : options :=
  mk_options (m_base o) (m_schemas o) m (m_dump_events o)
    (m_dump_routines o) (m_compatibility_options o) (m_mds o).

Definition set_dump_events (b : bool) (o : options) : options :=
  mk_options (m_base o) (m_schemas o) (m_excluded_tables o) b
    (m_dump_routines o) (m_compatibility_options o) (m_mds o).

Definition set_dump_routines (b : bool) (o : options) : options :=
  mk_options (m_base o) (m_schemas o) (m_excluded_tables o) (m_dump_events o)
    b (m_compatibility_options o) (m_mds o).

Definition set_compatibility_options (c : Z) (o : options) : options :=
  mk_options (m_base o) (m_schemas o) (m_excluded_tables o) (m_dump_events o)
    (m_dump_routines o) c (m_mds o).

Definition set_mds (v : option Version) (o : options) : options :=
  mk_options (m_base o) (m_schemas o) (m_excluded_tables o) (m_dump_events o)
    (m_dump_routines o) (m_compatibility_options o) v.

(** [Dump_schemas_options(schemas, output_url)]. *)
Definition new_with_schemas (schemas : list string) (output_url : string)
  : options :=
  set_schemas (list_to_set schemas) (Ddl_dumper_options_new output_url).

(** [Dump_schemas_options(output_url)]: [m_schemas] is left empty. *)
Definition new_without_schemas (output_url : string) : options :=
  set_schemas ∅ (Ddl_dumper_options_new output_url).

(** [unpacker->optional(name, &target)]: the target keeps its value when
    the key is absent. *)
Definition optional {A} (value : option A) (target : A) : A :=
  default target value.

(** [m_excluded_tables[schema].emplace(std::move(table))]. *)
Definition emplace_excluded (schema table : string)
    (m : gmap string (gset string)) : gmap string (gset string) :=
  <[schema := {[table]} ∪ m !!! schema]> m.

(** The body of the loop over [tables]. *)
Definition exclude_table (t : string) (o : options) : result options :=
  match split_schema_and_table t with
  | Throw (runtime_error what) =>
      Throw (invalid_argument
        ("Failed to parse table to be excluded '" +:+ t +:+ "': " +:+ what))
  | Throw e => Throw e
  | Ok (schema, table) =>
      if decide (schema = "") then
        Throw (invalid_argument
          ("The table to be excluded must be in the following form: "
           +:+ "schema.table, with optional backtick quotes, wrong value: '"
           +:+ t +:+ "'."))
      else
        Ok (set_excluded_tables
              (emplace_excluded schema table (m_excluded_tables o)) o)
  end.

Fixpoint exclude_tables (tables : list string) (o : options)
  : result options :=
  match tables with
  | [] => Ok o
  | t :: rest => o' ← exclude_table t o; exclude_tables rest o'
  end.

(** Modelled from the spec: [set_mds_compatibility], declared in a header
    that is not part of the sources.  Section 3: the target-mode preset
    "enables a fixed subset and pins a minimum target-version tag recorded
    in the manifest". *)
Definition set_mds_compatibility (v : Version) (o : options) : options :=
  set_mds (Some v)
    (set_compatibility_options
       (Z.lor (m_compatibility_options o) mds_compatibility_options) o).

(** The loop [m_compatibility_options |= to_compatibility_option(option)]. *)
Fixpoint add_compatibility_options (names : list string) (o : options)
  : result options :=
  match names with
  | [] => Ok o
  | name :: rest =>
      c ← to_compatibility_option name;
      add_compatibility_options rest
        (set_compatibility_options (Z.lor (m_compatibility_options o) c) o)
  end.

(** [Dump_schemas_options::unpack_options]. *)
Definition unpack_options (unpacker : Option_unpacker DdlOpts) (o : options)
  : result options :=
  o ← Ddl_unpack_options (opt_ddl unpacker) o;
  let tables := optional (opt_excludeTables unpacker) [] in
  let o := set_dump_events
             (optional (opt_events unpacker) (m_dump_events o)) o in
  let o := set_dump_routines
             (optional (opt_routines unpacker) (m_dump_routines o)) o in
  let mds := optional (opt_ocimds unpacker) false in
  let compatibility_options := optional (opt_compatibility unpacker) [] in
  o ← exclude_tables tables o;
  let o := if mds then set_mds_compatibility (mk_Version MYSH_VERSION) o
           else o in
  add_compatibility_options compatibility_options o.

(** [Dump_schemas_options::validate_options]. *)
Definition validate_options (o : options) : result () :=
  Ddl_validate_options o;;
  if decide (m_schemas o = ∅) then
    Throw (invalid_argument "The 'schemas' parameter cannot be an empty list.")
  else Ok ().

(** *** Vocabulary of the statements *)

(** The entry splits into a schema and a table, neither of them empty. *)
Definition well_formed_entry (t : string) : Prop :=
  ∃ schema table,
    split_schema_and_table t = Ok (schema, table) ∧ schema ≠ "" ∧ table ≠ "".

(** The message quotes the entry. *)
Definition mentions (t what : string) : Prop :=
  ∃ before after, what = before +:+ t +:+ after.

(** What section 4.1 of the design document expects of the splitter: it
    reports an entry it cannot split with the [std::runtime_error] the loop
    catches, and it never hands out an empty table name.  (An empty schema
    is what the loop itself tests.) *)
Definition splitter_contract : Prop :=
  ∀ t, match split_schema_and_table t with
       | Ok (_, table) => table ≠ ""
       | Throw e => ∃ what, e = runtime_error what
       end.

(** Every collaborator reports a refused configuration the way the
    design document says: the base class and the option-name parser with
    [std::invalid_argument], the splitter with [std::runtime_error]. *)
Definition configuration_errors_only : Prop :=
  (∀ d o e, Ddl_unpack_options d o = Throw e → is_invalid_argument e = true)
  ∧ (∀ t e, split_schema_and_table t = Throw e → ∃ what, e = runtime_error what)
  ∧ (∀ name e,
       to_compatibility_option name = Throw e → is_invalid_argument e = true).

(** The same dictionary with another [compatibility] list. *)
Definition with_compatibility (names : list string)
    (u : Option_unpacker DdlOpts) : Option_unpacker DdlOpts :=
  mk_unpacker (opt_ddl u) (opt_excludeTables u) (opt_events u)
    (opt_routines u) (opt_ocimds u) (Some names).

(** The same dictionary with another [excludeTables] list. *)
Definition with_excludeTables (tables : list string)
    (u : Option_unpacker DdlOpts) : Option_unpacker DdlOpts :=
  mk_unpacker (opt_ddl u) (Some tables) (opt_events u)
    (opt_routines u) (opt_ocimds u) (opt_compatibility u).

(** The state in which the exclusion loop of [unpack_options] starts, from
    the state left by the base class. *)
Definition before_exclusions (u : Option_unpacker DdlOpts) (o : options)
  : options :=
  set_dump_routines (optional (opt_routines u) (m_dump_routines o))
    (set_dump_events (optional (opt_events u) (m_dump_events o)) o).

(** The state in which the loop over the compatibility options starts, from
    the state left by the exclusion loop. *)
Definition before_compatibility (u : Option_unpacker DdlOpts) (o : options)
  : options :=
  if optional (opt_ocimds u) false
  then set_mds_compatibility (mk_Version MYSH_VERSION) o else o.

(** The option set contains every option of [subset]. *)
Definition includes (opts subset : Z) : Prop := Z.land opts subset = subset.

End options.

End Dump.

(** ** Collaborators of the options object, from the design document *)

Module DumpSpec.
Import Dump.

(** Splits [s] at its first dot. *)
Fixpoint split_at_dot (s : string) : option (string * string) :=
  match s with
  | EmptyString => None
  | String c rest =>
      if decide (c = "."%char) then Some (EmptyString, rest)
      else match split_at_dot rest with
           | Some (before, after) => Some (String c before, after)
           | None => None
           end
  end.

(** Modelled from the spec: [shcore::split_schema_and_table], declared in
    [mysqlshdk/libs/utils/utils_general.h], which is not part of the
    sources.  Section 4.1: an entry is parsed "into (schema, table)" and is
    refused when it "cannot be split into exactly two non-empty
    identifiers".  The refusal is a [std::runtime_error], the exception the
    caller catches. *)
Definition spec_split_schema_and_table (t : string)
  : result (string * string) :=
  match split_at_dot t with
  | Some (schema, table) =>
      if decide (schema ≠ "" ∧ table ≠ "" ∧ split_at_dot table = None)
      then Ok (schema, table)
      else Throw (runtime_error "Invalid object name")
  | None => Throw (runtime_error "Invalid object name")
  end.

(** The rules named in section 3 of the design document, each with the bit
    that stands for it in the option set. *)
Definition known_compatibility_options : list (string * Z) :=
  [("strip-definer", 1); ("strip-unsupported-index-options", 2);
   ("force-storage-engine", 4)].

Fixpoint find_option (table : list (string * Z)) (name : string) : option Z :=
  match table with
  | [] => None
  | (n, mask) :: rest =>
      if decide (n = name) then Some mask else find_option rest name
  end.

(** Modelled from the spec: [to_compatibility_option], defined next to the
    [Compatibility_option] enumeration, which is not part of the sources.
    Section 4.2: "Unknown/unsupported compatibility option names fail fast
    with ConfigurationError". *)
Definition spec_to_compatibility_option (name : string) : result Z :=
  match find_option known_compatibility_options name with
  | Some mask => Ok mask
  | None =>
      Throw (invalid_argument ("Unknown compatibility option: " +:+ name))
  end.

(** A base class without options of its own, that accepts everything;
    the preset of the target mode is the first rule, and the shell has the
    version of the year of the source file. *)
Definition plain_options : Dump_schemas_options () :=
  mk_options () ∅ ∅ true true 0 None.

(** The collaborators as the design document describes them. *)
#[export] Instance spec_collaborators : Collaborators () () := {|
  Ddl_dumper_options_new := λ _, plain_options;
  Ddl_unpack_options := λ _ o, Ok o;
  Ddl_validate_options := λ _, Ok ();
  split_schema_and_table := spec_split_schema_and_table;
  to_compatibility_option := spec_to_compatibility_option;
  mds_compatibility_options := 1;
  MYSH_VERSION := "8.0.21"
|}.

(** *** Configurations used as examples *)

(** Requested schema [s1], excluded table [s2.t]. *)
Definition foreign_exclusion : Option_unpacker () :=
  mk_unpacker () (Some ["s2.t"]) None None None None.

(** An exclusion list whose second entry has no schema. *)
Definition malformed_exclusion : Option_unpacker () :=
  mk_unpacker () (Some ["s1.t1"; "nodot"; "s1.t2"]) None None None None.

(** Exclusion lists whose entry lacks the table, or the schema. *)
Definition empty_table_exclusion : Option_unpacker () :=
  mk_unpacker () (Some ["s1."]) None None None None.

Definition empty_schema_exclusion : Option_unpacker () :=
  mk_unpacker () (Some [".t1"]) None None None None.

(** A compatibility list with a name that is not an option. *)
Definition unknown_option : Option_unpacker () :=
  mk_unpacker () None None None None
    (Some ["strip-definer"; "no-such-option"]).

(** The target mode together with one listed option. *)
Definition target_mode : Option_unpacker () :=
  mk_unpacker () None None None (Some true) (Some ["force-storage-engine"]).

(** The options left by the exclusion list [s1.a; s1.b; s1.a]. *)
Definition excluded_a_b : Dump_schemas_options () :=
  mk_options () {["s1"]} {["s1" := {["a"; "b"]}]} true true 0 None.

End DumpSpec.

(** ** Chunk planning *)

Module Planner.

(** A chunk descriptor: a sequence index within the table and a half-open
    range of row offsets. *)
Record Chunk := mk_Chunk {
  chunk_index : nat;
  chunk_begin : Z;
  chunk_end : Z
}.

(** Cuts chunks of [size] rows from [offset] on; the chunk that reaches
    [rows] takes what is left. *)
Fixpoint plan_from (fuel index : nat) (offset rows size : Z) : list Chunk :=
  match fuel with
  | O => []
  | S fuel =>
      if rows - offset <=? size then [mk_Chunk index offset rows]
      else mk_Chunk index offset (offset + size)
           :: plan_from fuel (S index) (offset + size) rows size
  end.

(** Modelled from the spec: the chunk planner
    [plan(table, row_count_estimate, target_chunk_size)], which has no
    source file here.  Section 4.3: a table without a usable ordering key
    "is planned as a single chunk"; otherwise the estimated row count is
    divided "into chunks of bounded target size; the last chunk absorbs any
    remainder (no empty trailing chunk)". *)
Definition plan (has_ordering_key : bool) (rows size : Z) : list Chunk :=
  if has_ordering_key then
    plan_from (Z.to_nat ((rows + size - 1) / size)) 0 0 rows size
  else [mk_Chunk 0 0 rows].



End Planner.

(** ** X-protocol result sets *)

Module Mysqlx.

(** [::mysqlx::FieldType]. *)
Inductive FieldType :=
| SINT | UINT | DOUBLE | FLOAT | BYTES | TIME | DATETIME | SET | ENUM | BIT
| DECIMAL.

(** [::mysqlx::ColumnMetadata], the members the result classes read. *)
Record ColumnMetadata := mk_ColumnMetadata {
  cm_type : FieldType;
  cm_name : string;
  cm_original_name : string;
  cm_table : string;
  cm_original_table : string;
  cm_schema : string;
  cm_fractional_digits : Z;
  cm_length : Z;
  cm_flags : Z;
  cm_content_type : Z;
  cm_collation : Z
}.

(** [::mysqlx::Result::Warning]. *)
Record Warning := mk_Warning {
  is_note : bool;
  code : Z;
  text : string
}.

(** [::mysqlx::DateTime]. *)
Record DateTime := mk_DateTime {
  dt_year : Z; dt_month : Z; dt_day : Z;
  dt_hour : Z; dt_minutes : Z; dt_seconds : Z; dt_useconds : Z
}.

Section values.
Context {double : Type}.

#[local] Unset Elimination Schemes.

(** [shcore::Value], with the objects the result classes wrap:
    [mysqlsh::Row], [shcore::Date] and [mysqlsh::Column]. *)
Inductive Value :=
| Undefined
| Null
| Bool (b : bool)
| Str (s : string)
| Integer (i : Z)
| UInteger (u : Z)
| Float (d : double)
| Array (items : list Value)
| Object (o : Object_bridge)
with Object_bridge :=
| RowObject (items : list Row_item)
| DateObject (year month day hour minutes : Z) (seconds : double)
| ColumnObject (schema orig_table table orig_name name : string)
    (data_type : Value) (length : Z) (is_numeric : bool)
    (fractional_digits : Z) (is_signed : bool)
    (collation_name charset_name : string) (is_padded : bool)
with Row_item :=
| mk_item (key : string) (value : Value) (display : option string).

#[local] Set Elimination Schemes.

(** [Value::operator bool]: a value is usable unless it is undefined or
    null; this is the test of the [while (record)] loops. *)
Definition Value_is_valid (v : Value) : bool :=
  match v with
  | Undefined | Null => false
  | _ => true
  end.

(** [Value::wrap(row)] for a [mysqlsh::Row] built with [add_item]. *)
Definition wrap (items : list Row_item) : Value := Object (RowObject items).

End values.
Arguments Value : clear implicits.
Arguments Object_bridge : clear implicits.
Arguments Row_item : clear implicits.

(** [::mysqlx::Result] as the result classes see it: the column metadata
    (a pointer that may be null), the rows of the current data set that
    have not been read yet, the warnings, and the counters of the
    statement.  [lastDocumentId] and [lastDocumentIds] may throw. *)
Record Result (Row : Type) := mk_Result {
  columnMetadata : option (list ColumnMetadata);
  unread : list Row;
  getWarnings : list Warning;
  affectedRows : Z;
  lastInsertId : Z;
  lastDocumentId : result string;
  lastDocumentIds : result (list string)
}.
Arguments mk_Result {Row}.
Arguments columnMetadata {Row}.
Arguments unread {Row}.
Arguments getWarnings {Row}.
Arguments affectedRows {Row}.
Arguments lastInsertId {Row}.
Arguments lastDocumentId {Row}.
Arguments lastDocumentIds {Row}.

(** What [mod_mysqlx_resultset.cc] calls but does not define: the field
    accessors of [::mysqlx::Row], and helpers of the shell core. *)
Class Client (Row double : Type) := {
  isNullField : Row → nat → bool;
  sInt64Field : Row → nat → Z;
  uInt64Field : Row → nat → Z;
  doubleField : Row → nat → double;
  floatField : Row → nat → double;
  stringField : Row → nat → string;
  decimalField : Row → nat → string;
  timeField : Row → nat → string;
  dateTimeField : Row → nat → DateTime;
  enumField : Row → nat → string;
  bitField : Row → nat → Z;
  (** [seconds + (double)useconds / 1000000]. *)
  seconds_with_fraction : Z → Z → double;
  Value_descr : Value double → string;
  Value_parse : string → result (Value double);
  get_function_name : string → string;
  translate_exception : string → exception → exception;
  MySQL_timer_format_legacy : Z → Z → string;
  ShellBaseResult_get_member : string → result (Value double);
  get_constant : string → string → string → Value double;
  collation_name_from_collation_id : Z → string;
  charset_name_from_collation_id : Z → string
}.

Section resultset.
Context {Row double : Type} `{!Client Row double}.

Abbreviation value := (Value double).

(** Modelled from the spec: [::mysqlx::Result::next], of the protocol
    client, which is not part of the sources.  Section 6 describes row
    access as a "lazy sequence of Row": the unread rows are handed out in
    order, and a null pointer once none is left. *)
Definition next (res : Result Row) : option Row * Result Row :=
  match unread res with
  | [] => (None, res)
  | row :: rest =>
      (Some row,
       mk_Result (columnMetadata res) rest (getWarnings res)
         (affectedRows res) (lastInsertId res) (lastDocumentId res)
         (lastDocumentIds res))
  end.

(** Dereferencing a null [columnMetadata()] is undefined behaviour; the
    model stops there with this error. *)
Definition null_dereference : exception :=
  logic_error "null columnMetadata dereferenced".

(** [Argument_list::ensure_count(count, context)]: the call is refused
    unless it has exactly [count] arguments. *)
Definition ensure_count (count : nat) (context : string) (args : list value)
  : result () :=
  if decide (length args = count) then Ok ()
  else Throw (invalid_argument
                ("Invalid number of arguments in " +:+ context)).

(** *** [BaseResult] *)

Record BaseResult := mk_BaseResult {
  _result : Result Row;
  _execution_time : Z
}.

(** [BaseResult::get_execution_time]. *)
Definition get_execution_time (r : BaseResult) : string :=
  MySQL_timer_format_legacy (_execution_time r) 2.

(** [BaseResult::get_warning_count]; [size_t] to [uint64_t] loses
    nothing. *)
Definition get_warning_count (r : BaseResult) : Z :=
  Z.of_nat (length (getWarnings (_result r))).

(** The row built for one warning in [BaseResult::get_member]. *)
Definition warning_row (w : Warning) : value :=
  wrap [mk_item "level" (Str (if is_note w then "Note" else "Warning")) None;
        mk_item "code" (Integer (code w)) None;
        mk_item "message" (Str (text w)) None].

(** [BaseResult::get_member]. *)
Definition BaseResult_get_member (r : BaseResult) (prop : string)
  : result value :=
  if decide (prop = "executionTime") then Ok (Str (get_execution_time r))
  else if decide (prop = "warningCount") then
    Ok (UInteger (get_warning_count r))
  else if decide (prop = "warnings") then
    let warnings := getWarnings (_result r) in
    let array :=
      if decide (length warnings ≠ 0%nat) then map warning_row warnings
      else [] in
    Ok (Array array)
  else ShellBaseResult_get_member prop.

(** *** [Result] *)

(** [Result::get_last_document_id]. *)
Definition get_last_document_id (r : BaseResult) : result string :=
  match lastDocumentId (_result r) with
  | Ok id => Ok id
  | Throw e =>
      Throw (translate_exception (get_function_name "getLastDocumentId") e)
  end.

(** [Result::get_last_document_ids]. *)
Definition get_last_document_ids (r : BaseResult) : result (list string) :=
  match lastDocumentIds (_result r) with
  | Ok ids => Ok ids
  | Throw e =>
      Throw (translate_exception (get_function_name "getLastDocumentIds") e)
  end.

(** [Result::get_member]. *)
Definition Result_get_member (r : BaseResult) (prop : string)
  : result value :=
  if decide (prop = "affectedItemCount") then
    Ok (Integer (affectedRows (_result r)))
  else if decide (prop = "autoIncrementValue") then
    Ok (Integer (lastInsertId (_result r)))
  else if decide (prop = "lastDocumentId") then
    id ← get_last_document_id r; Ok (Str id)
  else if decide (prop = "lastDocumentIds") then
    doc_ids ← get_last_document_ids r; Ok (Array (map Str doc_ids))
  else BaseResult_get_member r prop.

(** *** [RowResult] *)

(** [_columns] caches the array built by [get_columns]. *)
Record RowResult := mk_RowResult {
  row_base : BaseResult;
  _columns : option (list value)
}.

(** [RowResult::get_column_count]. *)
Definition get_column_count (r : RowResult) : Z :=
  match columnMetadata (_result (row_base r)) with
  | Some metadata => Z.of_nat (length metadata)
  | None => 0
  end.

(** [RowResult::get_column_names]. *)
Definition get_column_names (r : RowResult) : list string :=
  match columnMetadata (_result (row_base r)) with
  | Some metadata => map cm_name metadata
  | None => []
  end.

(** [flags & 0x001] read as a boolean. *)
Definition flag1 (md : ColumnMetadata) : bool :=
  negb (Z.land (cm_flags md) 1 =? 0).

(** The name, signedness and padding chosen by the [switch] of
    [get_columns]; [SINT] falls through to [UINT]. *)
Definition integer_type_name (md : ColumnMetadata) : string :=
  let l := cm_length md in
  if (l =? 3) || (l =? 4) then "TINYINT"
  else if (l =? 5) || (l =? 6) then "SMALLINT"
  else if (l =? 8) || (l =? 9) then "MEDIUMINT"
  else if (l =? 10) || (l =? 11) then "INT"
  else if l =? 20 then "BIGINT"
  else "".

Definition column_type (md : ColumnMetadata) : string * bool * bool :=
  match cm_type md with
  | SINT => (integer_type_name md, true, true)
  | UINT => (integer_type_name md, false, true)
  | BIT => ("BIT", false, true)
  | DOUBLE => ("DOUBLE", negb (flag1 md), true)
  | FLOAT => ("FLOAT", negb (flag1 md), true)
  | DECIMAL => ("DECIMAL", negb (flag1 md), true)
  | BYTES =>
      let content := Z.land (cm_content_type md) 3 in
      let type_name :=
        if content =? 1 then "GEOMETRY"
        else if content =? 2 then "JSON"
        else if content =? 3 then "XML"
        else if decide (charset_name_from_collation_id (cm_collation md)
                        = "binary")
             then "BYTES" else "STRING" in
      (type_name, flag1 md, flag1 md)
  | TIME => ("TIME", false, true)
  | DATETIME =>
      (if flag1 md then "TIMESTAMP"
       else if cm_length md =? 10 then "DATE" else "DATETIME",
       false, true)
  | SET => ("SET", false, true)
  | ENUM => ("ENUM", false, true)
  end.

(** The [mysqlsh::Column] pushed for one column by [get_columns]. *)
Definition column_of (md : ColumnMetadata) : value :=
  let is_numeric :=
    match cm_type md with
    | SINT | UINT | DOUBLE | FLOAT | DECIMAL => true
    | _ => false
    end in
  let '(type_name, is_signed, is_padded) := column_type md in
  let data_type := get_constant "mysqlx" "Type" type_name in
  let orig_table :=
    if decide (cm_original_table md = "") then cm_table md
    else cm_original_table md in
  let orig_name :=
    if decide (cm_original_name md = "") then cm_name md
    else cm_original_name md in
  Object (ColumnObject (cm_schema md) orig_table (cm_table md) orig_name
            (cm_name md) data_type (cm_length md) is_numeric
            (cm_fractional_digits md) is_signed
            (collation_name_from_collation_id (cm_collation md))
            (charset_name_from_collation_id (cm_collation md)) is_padded).

(** [RowResult::get_columns]: builds the array on the first call and
    returns the cached one afterwards. *)
Definition get_columns (r : RowResult) : result (list value) * RowResult :=
  match _columns r with
  | Some columns => (Ok columns, r)
  | None =>
      match columnMetadata (_result (row_base r)) with
      | None => (Throw null_dereference, r)
      | Some metadata =>
          let columns := map column_of metadata in
          (Ok columns, mk_RowResult (row_base r) (Some columns))
      end
  end.

(** [RowResult::get_member]. *)
Definition RowResult_get_member (r : RowResult) (prop : string)
  : result value * RowResult :=
  if decide (prop = "columnCount") then (Ok (Integer (get_column_count r)), r)
  else if decide (prop = "columnNames") then
    (Ok (Array (map Str (get_column_names r))), r)
  else if decide (prop = "columns") then
    match get_columns r with
    | (Ok columns, r') => (Ok (Array columns), r')
    | (Throw e, r') => (Throw e, r')
    end
  else (BaseResult_get_member (row_base r) prop, r).

(** Conversion to [int] of a difference computed on [size_t]. *)
Definition to_int (z : Z) : Z :=
  let m := z mod 2 ^ 32 in
  if m <? 2 ^ 31 then m else m - 2 ^ 32.

Fixpoint zeros (n : nat) : string :=
  match n with
  | O => ""
  | S n => String "0"%char (zeros n)
  end.

(** The [switch] of [RowResult::fetch_one] for a field that is not null:
    the value of the field and the display value left afterwards. *)
Definition field_to_value (md : ColumnMetadata) (row : Row) (index : nat)
    (display_value : string) : value * string :=
  match cm_type md with
  | SINT => (Integer (sInt64Field row index), display_value)
  | UINT =>
      let display_value :=
        if flag1 md then
          let digits := pretty (uInt64Field row index) in
          let count :=
            to_int (cm_length md - Z.of_nat (String.length digits)) in
          if 0 <? count then zeros (Z.to_nat count) +:+ digits else digits
        else display_value in
      (UInteger (uInt64Field row index), display_value)
  | DOUBLE => (Float (doubleField row index), display_value)
  | FLOAT => (Float (floatField row index), display_value)
  | BYTES => (Str (stringField row index), display_value)
  | DECIMAL => (Str (decimalField row index), display_value)
  | TIME => (Str (timeField row index), display_value)
  | DATETIME =>
      let date := dateTimeField row index in
      (Object (DateObject (dt_year date) (dt_month date) (dt_day date)
                 (dt_hour date) (dt_minutes date)
                 (seconds_with_fraction (dt_seconds date) (dt_useconds date))),
       display_value)
  | ENUM => (Str (enumField row index), display_value)
  | BIT => (UInteger (bitField row index), display_value)
  | SET => (Undefined, display_value)
  end.

(** The loop over the columns in [RowResult::fetch_one]; [display_value]
    is declared outside the loop and keeps its text from one column to the
    next. *)
Fixpoint add_items (metadata : list ColumnMetadata) (row : Row) (index : nat)
    (display_value : string) (items : list (Row_item double))
  : list (Row_item double) :=
  match metadata with
  | [] => items
  | md :: rest =>
      let '(field_value, display_value) :=
        if isNullField row index then (Null, display_value)
        else field_to_value md row index display_value in
      let display_value :=
        if decide (display_value = "") then Value_descr field_value
        else display_value in
      add_items rest row (S index) display_value
        (items ++ [mk_item (cm_name md) field_value (Some display_value)])
  end.

(** [RowResult::fetch_one], on the shared [::mysqlx::Result]. *)
Definition RowResult_fetch_one (args : list value) (res : Result Row)
  : result value * Result Row :=
  match ensure_count 0 (get_function_name "fetchOne") args with
  | Throw e => (Throw e, res)
  | Ok _ =>
      match columnMetadata res with
      | None => (Throw null_dereference, res)
      | Some metadata =>
          if decide (0 < length metadata)%nat then
            match next res with
            | (Some row, res') =>
                (Ok (wrap (add_items metadata row 0 "" [])), res')
            | (None, res') => (Ok Undefined, res')
            end
          else (Ok Undefined, res)
      end
  end.

(** The [while (record)] loop shared by both [fetch_all]; [None] when
    [fuel] iterations were not enough. *)
Fixpoint fetch_loop (fetch_one : Result Row → result value * Result Row)
    (fuel : nat) (record : value) (array : list value) (res : Result Row)
  : option (result value * Result Row) :=
  if Value_is_valid record then
    match fuel with
    | O => None
    | S fuel =>
        let array := array ++ [record] in
        match fetch_one res with
        | (Ok record, res') => fetch_loop fetch_one fuel record array res'
        | (Throw e, res') => Some (Throw e, res')
        end
    end
  else Some (Ok (Array array), res).

(** [RowResult::fetch_all]. *)
Definition RowResult_fetch_all (fuel : nat) (args : list value)
    (res : Result Row) : option (result value * Result Row) :=
  match ensure_count 0 (get_function_name "fetchAll") args with
  | Throw e => Some (Throw e, res)
  | Ok _ =>
      match RowResult_fetch_one args res with
      | (Ok record, res') =>
          fetch_loop (RowResult_fetch_one args) fuel record [] res'
      | (Throw e, res') => Some (Throw e, res')
      end
  end.

(** *** [SqlResult] *)

(** [SqlResult::get_member]. *)
Definition SqlResult_get_member (r : RowResult) (prop : string)
  : result value * RowResult :=
  if decide (prop = "autoIncrementValue") then
    (Ok (Integer (lastInsertId (_result (row_base r)))), r)
  else if decide (prop = "affectedRowCount") then
    (Ok (Integer (affectedRows (_result (row_base r)))), r)
  else RowResult_get_member r prop.

(** *** [DocResult] *)

(** [DocResult::fetch_one], on the shared [::mysqlx::Result]. *)
Definition DocResult_fetch_one (args : list value) (res : Result Row)
  : result value * Result Row :=
  match ensure_count 0 (get_function_name "fetchOne") args with
  | Throw e => (Throw e, res)
  | Ok _ =>
      match columnMetadata res with
      | Some (_ :: _) =>
          match next res with
          | (Some r, res') =>
              match Value_parse (stringField r 0) with
              | Ok document => (Ok document, res')
              | Throw e =>
                  (Throw (translate_exception
                            (get_function_name "fetchOne") e), res')
              end
          | (None, res') => (Ok Null, res')
          end
      | _ => (Ok Null, res)
      end
  end.

(** [DocResult::fetch_all]. *)
Definition DocResult_fetch_all (fuel : nat) (args : list value)
    (res : Result Row) : option (result value * Result Row) :=
  match ensure_count 0 (get_function_name "fetchAll") args with
  | Throw e => Some (Throw e, res)
  | Ok _ =>
      match DocResult_fetch_one args res with
      | (Ok record, res') =>
          fetch_loop (DocResult_fetch_one args) fuel record [] res'
      | (Throw e, res') => Some (Throw e, res')
      end
  end.

(** Successive calls of [fetch_one] from [res] return the valid records
    [records], then a value that is not valid, and leave [res']. *)
Inductive drains (fetch_one : Result Row → result value * Result Row)
  : Result Row → list value → Result Row → Prop :=
| drains_done res last res' :
    fetch_one res = (Ok last, res') →
    Value_is_valid last = false →
    drains fetch_one res [] res'
| drains_more res record res1 records res' :
    fetch_one res = (Ok record, res1) →
    Value_is_valid record = true →
    drains fetch_one res1 records res' →
    drains fetch_one res (record :: records) res'.

(** *** Vocabulary of the statements *)

(** [res] with other rows left to read. *)
Definition with_unread (rows : list Row) (res : Result Row) : Result Row :=
  mk_Result (columnMetadata res) rows (getWarnings res) (affectedRows res)
    (lastInsertId res) (lastDocumentId res) (lastDocumentIds res).

(** The record [RowResult::fetch_one] builds from a row. *)
Definition Row_record (metadata : list ColumnMetadata) (row : Row) : value :=
  wrap (add_items metadata row 0 "" []).

(** The record [DocResult::fetch_one] builds from a row that holds a
    document. *)
Definition Doc_record (row : Row) : value :=
  match Value_parse (stringField row 0) with
  | Ok document => document
  | Throw _ => Null
  end.

(** The first field of the row parses to a document, a value that is
    neither undefined nor null. *)
Definition document_row (row : Row) : Prop :=
  ∃ document,
    Value_parse (stringField row 0) = Ok document ∧
    Value_is_valid document = true.





(** The two members are an unsigned count and an array of that length. *)
Definition count_matches (count warnings : result value) : Prop :=
  ∃ n items,
    count = Ok (UInteger n) ∧ warnings = Ok (Array items) ∧
    n = Z.of_nat (length items) ∧ (n = 0 ↔ items = []).

End resultset.

End Mysqlx.

(** ** A client with textual rows *)

Module TextClient.
Import Mysqlx.

(** Rows are lists of text fields; a field beyond the end of the row is
    null; documents are kept as their text, except [null]. *)
#[export] Instance text_client : Client (list string) () := {|
  isNullField := λ row index, bool_decide (row !! index = None);
  sInt64Field := λ _ _, 0;
  uInt64Field := λ _ _, 0;
  doubleField := λ _ _, ();
  floatField := λ _ _, ();
  stringField := λ row index, default "" (row !! index);
  decimalField := λ row index, default "" (row !! index);
  timeField := λ row index, default "" (row !! index);
  dateTimeField := λ _ _, mk_DateTime 1970 1 1 0 0 0 0;
  enumField := λ row index, default "" (row !! index);
  bitField := λ _ _, 0;
  seconds_with_fraction := λ _ _, ();
  Value_descr := λ v, match v with Str text => text | _ => "" end;
  Value_parse := λ text, if decide (text = "null") then Ok Null
                         else Ok (Str text);
  get_function_name := id;
  translate_exception := λ _ e, e;
  MySQL_timer_format_legacy := λ _ _, "0.00 sec";
  ShellBaseResult_get_member :=
    λ prop, Throw (invalid_argument ("Invalid object member " +:+ prop));
  get_constant := λ _ _ name, Str name;
  collation_name_from_collation_id := λ _, "utf8mb4_general_ci";
  charset_name_from_collation_id := λ _, "utf8mb4"
|}.

(** One column of bytes named [doc]. *)
Definition doc_column : ColumnMetadata :=
  mk_ColumnMetadata BYTES "doc" "doc" "c" "c" "s" 0 0 0 2 0.

(** Two rows to read, and one warning. *)
Definition two_documents : Result (list string) :=
  mk_Result (Some [doc_column]) [["{}"]; ["{}"]]
    [mk_Warning true 1051 "Unknown table"] 0 0 (Ok "") (Ok []).

End TextClient.

(** ** More vocabulary for the options object *)

Module DumpMore.
Import Dump.

Section vocabulary.
Context {Base DdlOpts : Type} `{!Collaborators Base DdlOpts}.

(** The exclusion loop takes the entry: the splitter returns and the
    schema is not empty. *)
Definition accepted_entry (t : string) : Prop :=
  ∃ schema table,
    split_schema_and_table t = Ok (schema, table) ∧ schema ≠ "".

(** The message of the loop for an entry the splitter refuses. *)
Definition parse_failure (t what : string) : string :=
  "Failed to parse table to be excluded '" +:+ t +:+ "': " +:+ what.

(** The message of the loop for an entry without a schema. *)
Definition wrong_form (t : string) : string :=
  "The table to be excluded must be in the following form: "
  +:+ "schema.table, with optional backtick quotes, wrong value: '"
  +:+ t +:+ "'.".

(** The parser of option names knows the name. *)
Definition known_option (name : string) : Prop :=
  returns (to_compatibility_option name).

End vocabulary.

(** A splitter that reads a text without a dot as a table without a
    schema, and splits any other text at its first dot. *)
Definition split_table_only (t : string) : result (string * string) :=
  match DumpSpec.split_at_dot t with
  | Some (schema, table) => Ok (schema, table)
  | None => Ok ("", t)
  end.

(** The collaborators of [DumpSpec.spec_collaborators] with that
    splitter. *)
Definition table_only_collaborators : Collaborators () () := {|
  Ddl_dumper_options_new := λ _, DumpSpec.plain_options;
  Ddl_unpack_options := λ _ o, Ok o;
  Ddl_validate_options := λ _, Ok ();
  split_schema_and_table := split_table_only;
  to_compatibility_option := DumpSpec.spec_to_compatibility_option;
  mds_compatibility_options := 1;
  MYSH_VERSION := "8.0.21"
|}.

(** The options object of the examples: schema [s1] requested. *)
Definition s1_options : Dump_schemas_options () :=
  mk_options () {["s1"]} ∅ true true 0 None.

(** The target mode with its option listed twice and another one. *)
Definition repeated_options : Option_unpacker () :=
  mk_unpacker () None None None (Some true)
    (Some ["strip-definer"; "force-storage-engine"; "strip-definer"]).

End DumpMore.

(** ** More of the result classes *)

Module MysqlxMore.
Import Mysqlx.

Section more.
Context {Row double : Type} `{!Client Row double}.

Definition item_key (item : Row_item double) : string :=
  match item with mk_item key _ _ => key end.

Definition item_value (item : Row_item double) : Value double :=
  match item with mk_item _ value _ => value end.

Definition item_display (item : Row_item double) : option string :=
  match item with mk_item _ _ display => display end.

(** The value [RowResult::fetch_one] gives to the field of a column. *)
Definition field_value (md : ColumnMetadata) (row : Row) (index : nat)
  : Value double :=
  if isNullField row index then Null
  else (field_to_value md row index "").1.

(** The field takes the branch of [fetch_one] that writes the zero-filled
    display value. *)
Definition zero_filled (md : ColumnMetadata) (row : Row) (index : nat)
  : Prop :=
  cm_type md = UINT ∧ flag1 md = true ∧ isNullField row index = false.

(** The display lengths for which [get_columns] has an integer type
    name. *)
Definition integer_lengths : list Z := [3; 4; 5; 6; 8; 9; 10; 11; 20].

(** *** [SqlResult::next_data_set] *)

(** [::mysqlx::Result::nextDataSet], of the protocol client: it tells
    whether there is another data set and moves the result to it. *)
Variable nextDataSet : Result Row → bool * Result Row.

(** [SqlResult::next_data_set]. *)
Definition SqlResult_next_data_set (args : list (Value double))
    (r : @RowResult Row double)
  : result (Value double) * @RowResult Row double :=
  match ensure_count 0 (get_function_name "nextDataSet") args with
  | Throw e => (Throw e, r)
  | Ok _ =>
      let '(more, res) := nextDataSet (_result (row_base r)) in
      (Ok (Bool more),
       mk_RowResult (mk_BaseResult res (_execution_time (row_base r)))
         (_columns r))
  end.

(** *** [append_json] *)

(** [shcore::JSON_dumper], of the shell core, and the option
    [SHCORE_SHOW_WARNINGS] of [Shell_core_options]. *)
Variable JSON_dumper : Type.
Variable deep_level : JSON_dumper → Z.
Variable start_object : JSON_dumper → JSON_dumper.
Variable end_object : JSON_dumper → JSON_dumper.
Variable append_value : string → Value double → JSON_dumper → JSON_dumper.
Variable show_warnings : bool.

(** [dumper.append_value(key, get_member(key))], where [get_member] is the
    virtual member function of the object. *)
Definition append_member (get_member : string → result (Value double))
    (key : string) (dumper : JSON_dumper) : result JSON_dumper :=
  value ← get_member key; Ok (append_value key value dumper).

(** [BaseResult::append_json]. *)
Definition BaseResult_append_json
    (get_member : string → result (Value double)) (dumper : JSON_dumper)
  : result JSON_dumper :=
  let create_object := deep_level dumper =? 0 in
  let dumper := if create_object then start_object dumper else dumper in
  dumper ← append_member get_member "executionTime" dumper;
  dumper ←
    (if show_warnings then
       dumper ← append_member get_member "warningCount" dumper;
       append_member get_member "warnings" dumper
     else Ok dumper);
  Ok (if create_object then end_object dumper else dumper).

(** [RowResult::append_json], on the dumper and the shared
    [::mysqlx::Result]. *)
Definition RowResult_append_json (fuel : nat)
    (get_member : string → result (Value double)) (dumper : JSON_dumper)
    (res : Result Row) : option (result JSON_dumper * Result Row) :=
  let create_object := deep_level dumper =? 0 in
  let dumper := if create_object then start_object dumper else dumper in
  match BaseResult_append_json get_member dumper with
  | Throw e => Some (Throw e, res)
  | Ok dumper =>
      match RowResult_fetch_all fuel [] res with
      | None => None
      | Some (Throw e, res') => Some (Throw e, res')
      | Some (Ok rows, res') =>
          let dumper := append_value "rows" rows dumper in
          Some (Ok (if create_object then end_object dumper else dumper),
                res')
      end
  end.

(** [DocResult::append_json]. *)
Definition DocResult_append_json (fuel : nat)
    (get_member : string → result (Value double)) (dumper : JSON_dumper)
    (res : Result Row) : option (result JSON_dumper * Result Row) :=
  let dumper := start_object dumper in
  match DocResult_fetch_all fuel [] res with
  | None => None
  | Some (Throw e, res') => Some (Throw e, res')
  | Some (Ok documents, res') =>
      let dumper := append_value "documents" documents dumper in
      match BaseResult_append_json get_member dumper with
      | Throw e => Some (Throw e, res')
      | Ok dumper => Some (Ok (end_object dumper), res')
      end
  end.

(** The virtual [get_member] of a [RowResult] object, for the members that
    do not touch its cache. *)
Definition RowResult_member (r : @RowResult Row double) (prop : string)
  : result (Value double) :=
  (RowResult_get_member r prop).1.

End more.

End MysqlxMore.

(** ** More examples with textual rows *)

Module MoreExamples.
Import Mysqlx TextClient MysqlxMore.

(** The client of [TextClient] with a parser that refuses the empty
    text. *)
Definition strict_client : Client (list string) () := {|
  isNullField := λ row index, bool_decide (row !! index = None);
  sInt64Field := λ _ _, 0;
  uInt64Field := λ _ _, 7;
  doubleField := λ _ _, ();
  floatField := λ _ _, ();
  stringField := λ row index, default "" (row !! index);
  decimalField := λ row index, default "" (row !! index);
  timeField := λ row index, default "" (row !! index);
  dateTimeField := λ _ _, mk_DateTime 1970 1 1 0 0 0 0;
  enumField := λ row index, default "" (row !! index);
  bitField := λ _ _, 0;
  seconds_with_fraction := λ _ _, ();
  Value_descr := λ v, match v with Str text => text | _ => "" end;
  Value_parse := λ text, if decide (text = "") then
                           Throw (runtime_error "Can't parse")
                         else Ok (Str text);
  get_function_name := id;
  translate_exception :=
    λ name e, match e with
              | runtime_error what => runtime_error (name +:+ ": " +:+ what)
              | _ => e
              end;
  MySQL_timer_format_legacy := λ _ _, "0.00 sec";
  ShellBaseResult_get_member :=
    λ prop, Throw (invalid_argument ("Invalid object member " +:+ prop));
  get_constant := λ _ _ name, Str name;
  collation_name_from_collation_id := λ _, "utf8mb4_general_ci";
  charset_name_from_collation_id := λ _, "utf8mb4"
|}.

(** A column of text named [name], and an unsigned column of display
    length 5 with the zero-fill flag. *)
Definition text_column (name : string) : ColumnMetadata :=
  mk_ColumnMetadata BYTES name name "t" "t" "s" 0 0 0 0 0.

Definition zerofill_column : ColumnMetadata :=
  mk_ColumnMetadata UINT "n" "n" "t" "t" "s" 0 5 1 0 0.

(** An integer column of display length 7. *)
Definition odd_column : ColumnMetadata :=
  mk_ColumnMetadata SINT "n" "n" "t" "t" "s" 0 7 0 0 0.

(** Three rows: a document, a row the parsers stop at, a document. *)
Definition stops_in_the_middle (stop : string) : Result (list string) :=
  mk_Result (Some [doc_column]) [["{}"]; [stop]; ["{}"]] [] 0 0 (Ok "")
    (Ok []).

(** A result with a second data set of two columns. *)
Definition second_data_set : Result (list string) :=
  mk_Result (Some [text_column "a"; text_column "b"]) [] [] 0 0 (Ok "")
    (Ok []).

Definition to_second_data_set (res : Result (list string))
  : bool * Result (list string) :=
  (true, second_data_set).

(** A dumper that records what it is told; its level is the number of
    objects that are open. *)
Inductive json_event :=
| object_started
| object_ended
| value_appended (key : string) (value : Value ()).

Fixpoint open_objects (events : list json_event) : Z :=
  match events with
  | [] => 0
  | object_started :: events => open_objects events + 1
  | object_ended :: events => open_objects events - 1
  | value_appended _ _ :: events => open_objects events
  end.

End MoreExamples.

(** ** [Shell_javascript] *)

Module Jscript.
Import Mysqlx.

(** What leaves the JavaScript context by a [throw]: a [shcore::Exception],
    the class [handle_input] catches, or anything else. *)
Inductive thrown :=
| Exception (what : string)
| other_exception (what : string).

(** A call returns or throws. *)
Inductive outcome (A : Type) :=
| Returned (a : A)
| Raised (t : thrown).
Arguments Returned {A} a.
Arguments Raised {A} t.

Section shell.
Context {double : Type}.

(** Declared in headers that are not part of the sources: the states of
    the input, of which [handle_input] names [Input_ok], and
    [JScript_context] with its two ways to run code.  The context is built
    on the delegate of the shell and prints through it: each run also gives
    the lines it printed.  [execute] reports a
    [boost::system::error_code] as well, here the message of the error when
    one is set. *)
Variable Interactive_input_state : Type.
Variable Input_ok : Interactive_input_state.
Variable JScript_context : Type.
Variable execute_interactive :
  string → JScript_context
  → outcome (Value double) * JScript_context * list string.
Variable execute :
  string → string → JScript_context
  → outcome (Value double * option string) * JScript_context * list string.

(** The shell of the language: its context, the code it handled last, and
    of its owner the input source and the lines printed so far through the
    delegate. *)
Record Shell_javascript := mk_Shell_javascript {
  _js : JScript_context;
  _last_handled : string;
  get_input_source : string;
  printed : list string
}.

(** Lines printed through the delegate, by the context or by
    [_owner->print_error(message)]. *)
Definition print_lines (lines : list string) (sh : Shell_javascript)
  : Shell_javascript :=
  mk_Shell_javascript (_js sh) (_last_handled sh) (get_input_source sh)
    (printed sh ++ lines).

Definition print_error (message : string) (sh : Shell_javascript)
  : Shell_javascript :=
  print_lines [message] sh.

Definition set_js (js : JScript_context) (sh : Shell_javascript)
  : Shell_javascript :=
  mk_Shell_javascript js (_last_handled sh) (get_input_source sh)
    (printed sh).

Definition set_last_handled (code : string) (sh : Shell_javascript)
  : Shell_javascript :=
  mk_Shell_javascript (_js sh) code (get_input_source sh) (printed sh).

(** [Shell_javascript::handle_input]: the value returned or the exception
    that leaves the call, the state of the input, and the shell. *)
Definition handle_input (code : string) (state : Interactive_input_state)
    (interactive : bool) (sh : Shell_javascript)
  : outcome (Value double) * Interactive_input_state * Shell_javascript :=
  if interactive then
    match execute_interactive code (_js sh) with
    | (Returned result, js, lines) =>
        (Returned result, Input_ok,
         set_last_handled code (print_lines lines (set_js js sh)))
    | (Raised t, js, lines) => (Raised t, state, print_lines lines (set_js js sh))
    end
  else
    match execute code (get_input_source sh) (_js sh) with
    | (Returned (result, err), js, lines) =>
        let sh := print_lines lines (set_js js sh) in
        let sh := match err with
                  | Some message => print_error message sh
                  | None => sh
                  end in
        (Returned result, Input_ok, set_last_handled code sh)
    | (Raised (Exception _), js, lines) =>
        (Returned Undefined, Input_ok,
         set_last_handled code (print_lines lines (set_js js sh)))
    | (Raised t, js, lines) => (Raised t, state, print_lines lines (set_js js sh))
    end.

(** [Shell_javascript::prompt]. *)
Definition prompt : string := "mysql-js> ".

(** What [handle_input] prints itself, after the lines of the context: the
    message of the error code that [execute] reports, outside interactive
    mode. *)
Definition own_lines (interactive : bool) (err : option string)
  : list string :=
  match interactive, err with
  | false, Some message => [message]
  | _, _ => []
  end.

End shell.

(** A context that returns the code as a text, reports an error for the
    code [warn], and throws for the codes [throw] and [abort], after
    printing the exception itself. *)
Definition echo_execute (code source : string) (js : ())
  : outcome (Value () * option string) * () * list string :=
  if decide (code = "throw") then
    (Raised (Exception "thrown"), js, ["Error: thrown"])
  else if decide (code = "abort") then
    (Raised (other_exception "abort"), js, ["Error: abort"])
  else if decide (code = "warn") then
    (Returned (Str code, Some "reported"), js, [])
  else (Returned (Str code, None), js, []).

Definition echo_execute_interactive (code : string) (js : ())
  : outcome (Value ()) * () * list string :=
  match echo_execute code "" js with
  | (Returned (result, _), js, lines) => (Returned result, js, lines)
  | (Raised t, js, lines) => (Raised t, js, lines)
  end.

End Jscript.

(** * Properties *)

(** ** Option unpacking and validation *)

Module DumpFacts.
Import Dump.

Section facts.
Context {Base DdlOpts : Type} `{!Collaborators Base DdlOpts}.

Implicit Types (o : Dump_schemas_options Base) (u : Option_unpacker DdlOpts).
Implicit Types (t schema table name : string) (tables names : list string).

(** *** The exclusion loop *)

Lemma exclude_table_well_formed t o :
  well_formed_entry t →
  ∃ schema table,
    split_schema_and_table t = Ok (schema, table) ∧
    exclude_table t o =
      Ok (set_excluded_tables
            (emplace_excluded schema table (m_excluded_tables o)) o).
Proof.
  intros (schema & table & Hsplit & Hschema & _).
  exists schema, table. split; [done|].
  unfold exclude_table. rewrite Hsplit.
  destruct (decide (schema = "")); [contradiction|done].
Qed.

Lemma exclude_table_malformed t o :
  splitter_contract → ¬ well_formed_entry t →
  ∃ what, exclude_table t o = Throw (invalid_argument what) ∧ mentions t what.
Proof.
  intros Hcontract Hbad. specialize (Hcontract t).
  unfold exclude_table.
  destruct (split_schema_and_table t) as [[schema table]|e] eqn:Hsplit.
  - destruct (decide (schema = "")) as [->|Hne].
    + eexists. split; [done|].
      exists ("The table to be excluded must be in the following form: "
              +:+ "schema.table, with optional backtick quotes, wrong value: '"),
             "'.".
      reflexivity.
    + destruct Hbad. by exists schema, table.
  - destruct Hcontract as [what ->].
    eexists. split; [done|].
    by exists "Failed to parse table to be excluded '", ("': " +:+ what).
Qed.

Lemma exclude_table_Ok t o o' :
  exclude_table t o = Ok o' →
  ∃ schema table,
    split_schema_and_table t = Ok (schema, table) ∧ schema ≠ "" ∧
    o' = set_excluded_tables
           (emplace_excluded schema table (m_excluded_tables o)) o.
Proof.
  unfold exclude_table.
  destruct (split_schema_and_table t) as [[schema table]|[]]; [|done..].
  destruct (decide (schema = "")); [done|].
  intros [= <-]. by exists schema, table.
Qed.

Lemma exclude_table_Throw t o e :
  (∀ t e, split_schema_and_table t = Throw e → ∃ what, e = runtime_error what) →
  exclude_table t o = Throw e → is_invalid_argument e = true.
Proof.
  intros Hcontract. unfold exclude_table.
  destruct (split_schema_and_table t) as [[schema table]|e'] eqn:Hsplit.
  - destruct (decide (schema = "")); [|done]. by intros [= <-].
  - destruct (Hcontract _ _ Hsplit) as [what ->]. by intros [= <-].
Qed.

Lemma exclude_tables_Throw tables o e :
  (∀ t e, split_schema_and_table t = Throw e → ∃ what, e = runtime_error what) →
  exclude_tables tables o = Throw e → is_invalid_argument e = true.
Proof.
  intros Hcontract. revert o.
  induction tables as [|t tables IH]; intros o; simpl; [done|].
  destruct (exclude_table t o) as [o'|e'] eqn:Hstep; simpl.
  - apply IH.
  - intros [= <-]. by eapply exclude_table_Throw.
Qed.

Lemma exclude_tables_malformed tables o :
  splitter_contract → ¬ Forall well_formed_entry tables →
  ∃ before t after what,
    tables = before ++ t :: after ∧
    Forall well_formed_entry before ∧ ¬ well_formed_entry t ∧
    exclude_tables tables o = Throw (invalid_argument what) ∧ mentions t what.
Proof.
  intros Hcontract. revert o.
  induction tables as [|t tables IH]; intros o Hbad.
  - destruct Hbad. constructor.
  - simpl.
    destruct (exclude_table t o) as [o'|e] eqn:Hstep.
    + apply exclude_table_Ok in Hstep as (schema & table & Hsplit & Hne & _).
      assert (well_formed_entry t) as Hwf.
      { exists schema, table. repeat split; [done..|].
        specialize (Hcontract t). by rewrite Hsplit in Hcontract. }
      destruct (IH o') as (before & t' & after & what & -> & ? & ? & ? & ?).
      { intros Hall. apply Hbad. by constructor. }
      exists (t :: before), t', after, what.
      repeat split; [by constructor|done..].
    + assert (¬ well_formed_entry t) as Hnot.
      { intros Hwf.
        destruct (exclude_table_well_formed t o Hwf) as (? & ? & _ & Heq).
        congruence. }
      destruct (exclude_table_malformed t o Hcontract Hnot)
        as (what & Heq & Hmentions).
      exists [], t, tables, what. simpl.
      repeat split; [constructor|done|congruence|done].
Qed.

Lemma unpack_options_unfold u o :
  unpack_options u o =
    (o1 ← Ddl_unpack_options (opt_ddl u) o;
     o2 ← exclude_tables (optional (opt_excludeTables u) [])
            (before_exclusions u o1);
     add_compatibility_options (optional (opt_compatibility u) [])
       (before_compatibility u o2)).
Proof. reflexivity. Qed.

Lemma unpack_options_Ok u o o' :
  unpack_options u o = Ok o' →
  ∃ o1 o2,
    Ddl_unpack_options (opt_ddl u) o = Ok o1 ∧
    exclude_tables (optional (opt_excludeTables u) [])
      (before_exclusions u o1) = Ok o2 ∧
    add_compatibility_options (optional (opt_compatibility u) [])
      (before_compatibility u o2) = Ok o'.
Proof.
  rewrite unpack_options_unfold.
  destruct (Ddl_unpack_options (opt_ddl u) o) as [o1|]; simpl; [|done].
  destruct (exclude_tables _ (before_exclusions u o1)) as [o2|] eqn:Hex;
    simpl; [|done].
  intros Hadd. by exists o1, o2.
Qed.

(** C2.  An exclusion entry that does not split into a schema and a table,
    both non-empty, makes option unpacking fail with
    [std::invalid_argument], and the message quotes the first such entry.
    The splitter is taken with its contract of section 4.1. *)
Theorem unpack_rejects_malformed_exclusion u o tables :
  splitter_contract →
  opt_excludeTables u = Some tables →
  ¬ Forall well_formed_entry tables →
  throws (unpack_options u o) ∧
  (returns (Ddl_unpack_options (opt_ddl u) o) →
   ∃ before t after what,
     tables = before ++ t :: after ∧
     Forall well_formed_entry before ∧ ¬ well_formed_entry t ∧
     unpack_options u o = Throw (invalid_argument what) ∧ mentions t what).
Proof.
  intros Hcontract Htables Hbad.
  rewrite unpack_options_unfold, Htables.
  destruct (Ddl_unpack_options (opt_ddl u) o) as [o1|e]; simpl.
  2: { split; [by exists e|]. by intros [? ?]. }
  destruct (exclude_tables_malformed tables (before_exclusions u o1)
              Hcontract Hbad)
    as (before & t & after & what & ? & ? & ? & Hthrow & ?).
  rewrite Hthrow. simpl. split; [by eexists|]. intros _.
  by exists before, t, after, what.
Qed.

(** *** Validation *)

Lemma list_to_set_empty_iff (schemas : list string) :
  (list_to_set schemas : gset string) = ∅ ↔ schemas = [].
Proof.
  split; [|by intros ->].
  destruct schemas as [|s schemas]; [done|].
  intros Hempty. exfalso.
  assert (s ∈ (list_to_set (s :: schemas) : gset string)) as Hin
    by (apply elem_of_list_to_set; left).
  rewrite Hempty in Hin. set_solver.
Qed.

Lemma validate_options_nonempty o :
  m_schemas o ≠ ∅ → validate_options o = Ddl_validate_options o.
Proof.
  intros Hne. unfold validate_options.
  destruct (Ddl_validate_options o) as [[]|e]; simpl; [|done].
  by destruct (decide (m_schemas o = ∅)).
Qed.

(** C3.  With an empty list of requested schemas validation fails, with
    [std::invalid_argument] once the checks of the base class have passed;
    with at least one requested schema the check of this class passes and
    the verdict is the one of the base class. *)
Theorem validate_options_schemas o :
  (m_schemas o = ∅ →
     throws (validate_options o) ∧
     (Ddl_validate_options o = Ok () →
      validate_options o =
        Throw (invalid_argument
                 "The 'schemas' parameter cannot be an empty list.")))
  ∧ (m_schemas o ≠ ∅ → validate_options o = Ddl_validate_options o).
Proof.
  unfold validate_options. split.
  - intros Hempty. split.
    + destruct (Ddl_validate_options o) as [[]|e]; simpl.
      * destruct (decide (m_schemas o = ∅)); [by eexists|done].
      * by exists e.
    + intros ->. simpl. by destruct (decide (m_schemas o = ∅)).
  - fold (validate_options o). apply validate_options_nonempty.
Qed.

(** The list given to the constructor is empty exactly when [m_schemas]
    is. *)
Lemma new_with_schemas_empty schemas url :
  m_schemas (new_with_schemas schemas url) = ∅ ↔ schemas = [].
Proof. apply list_to_set_empty_iff. Qed.

(** *** The loop over the compatibility options *)

Lemma add_compatibility_options_unknown names name o :
  name ∈ names → throws (to_compatibility_option name) →
  ∃ before bad after e,
    names = before ++ bad :: after ∧
    Forall (λ n, returns (to_compatibility_option n)) before ∧
    to_compatibility_option bad = Throw e ∧
    add_compatibility_options names o = Throw e.
Proof.
  revert o. induction names as [|n names IH]; intros o Hin Hthrows.
  - by apply elem_of_nil in Hin.
  - simpl. destruct (to_compatibility_option n) as [c|e] eqn:Hn; simpl.
    + apply elem_of_cons in Hin as [->|Hin].
      { destruct Hthrows as [e He]. congruence. }
      destruct (IH (set_compatibility_options
                      (Z.lor (m_compatibility_options o) c) o) Hin Hthrows)
        as (before & bad & after & e & -> & ? & ? & ?).
      exists (n :: before), bad, after, e.
      repeat split; [|done..]. constructor; [by exists c|done].
    + exists [], n, names, e. repeat split; [constructor|done].
Qed.

(** C4.  A compatibility option name that the parser of option names
    refuses makes option unpacking fail, and the failure is a
    [std::invalid_argument]: nothing is returned that rewriting or I/O could
    start from. *)
Theorem unknown_compatibility_option_rejected u o names name :
  configuration_errors_only →
  opt_compatibility u = Some names →
  name ∈ names →
  throws (to_compatibility_option name) →
  ∃ e, unpack_options u o = Throw e ∧ is_invalid_argument e = true.
Proof.
  intros (Hbase & Hsplit & Hcompat) Hnames Hin Hthrows.
  rewrite unpack_options_unfold.
  destruct (Ddl_unpack_options (opt_ddl u) o) as [o1|e] eqn:H1; simpl.
  2: { exists e. split; [done|]. by eapply Hbase. }
  destruct (exclude_tables _ (before_exclusions u o1)) as [o2|e] eqn:H2; simpl.
  2: { exists e. split; [done|]. by eapply exclude_tables_Throw. }
  rewrite Hnames. simpl.
  destruct (add_compatibility_options_unknown names name
              (before_compatibility u o2) Hin Hthrows)
    as (before & bad & after & e & _ & _ & Hbad & ->).
  exists e. split; [done|]. by eapply Hcompat.
Qed.

(** *** What the two loops change *)

Lemma exclude_tables_frame tables o o' :
  exclude_tables tables o = Ok o' →
  o' = set_excluded_tables (m_excluded_tables o') o.
Proof.
  revert o. induction tables as [|t tables IH]; intros o; simpl.
  - intros [= <-]. by destruct o.
  - destruct (exclude_table t o) as [o1|] eqn:Hstep; simpl; [|done].
    apply exclude_table_Ok in Hstep as (schema & table & _ & _ & ->).
    intros Hrest. by rewrite (IH _ Hrest) at 1.
Qed.

Lemma add_compatibility_options_Ok names o o' :
  add_compatibility_options names o = Ok o' →
  ∃ masks,
    Forall2 (λ name c, to_compatibility_option name = Ok c) names masks ∧
    o' = set_compatibility_options
           (fold_left Z.lor masks (m_compatibility_options o)) o.
Proof.
  revert o. induction names as [|n names IH]; intros o; simpl.
  - intros [= <-]. exists []. split; [constructor|by destruct o].
  - destruct (to_compatibility_option n) as [c|] eqn:Hn; simpl; [|done].
    intros Hrest. destruct (IH _ Hrest) as (masks & Hall & ->).
    exists (c :: masks). split; [by constructor|done].
Qed.

Lemma includes_lor opts c subset :
  includes opts subset → includes (Z.lor opts c) subset.
Proof.
  unfold includes. intros Hinc. apply Z.bits_inj'. intros n Hn.
  apply (f_equal (λ z, Z.testbit z n)) in Hinc. revert Hinc.
  rewrite !Z.land_spec, Z.lor_spec.
  by destruct (Z.testbit opts n), (Z.testbit c n), (Z.testbit subset n).
Qed.

Lemma includes_fold_left masks opts subset :
  includes opts subset → includes (fold_left Z.lor masks opts) subset.
Proof.
  revert opts. induction masks as [|c masks IH]; intros opts Hinc; simpl.
  - done.
  - by apply IH, includes_lor.
Qed.

Lemma includes_lor_r opts subset : includes (Z.lor opts subset) subset.
Proof.
  unfold includes. apply Z.bits_inj'. intros n Hn.
  rewrite Z.land_spec, Z.lor_spec.
  by destruct (Z.testbit opts n), (Z.testbit subset n).
Qed.

(** C5.  When [ocimds] is true, a successful unpacking has recorded the
    version of the shell as the version tag and has switched on every
    option of the preset; when [ocimds] is false or absent, the version tag
    is the one left by the base class and the option set has received the
    options listed under [compatibility] and nothing else. *)
Theorem ocimds_preset u o o1 o' :
  Ddl_unpack_options (opt_ddl u) o = Ok o1 →
  unpack_options u o = Ok o' →
  (opt_ocimds u = Some true →
     m_mds o' = Some (mk_Version MYSH_VERSION) ∧
     includes (m_compatibility_options o') mds_compatibility_options)
  ∧ (opt_ocimds u ≠ Some true →
     m_mds o' = m_mds o1 ∧
     ∃ masks,
       Forall2 (λ name c, to_compatibility_option name = Ok c)
         (optional (opt_compatibility u) []) masks ∧
       m_compatibility_options o' =
         fold_left Z.lor masks (m_compatibility_options o1)).
Proof.
  intros Hbase Hunpack.
  apply unpack_options_Ok in Hunpack as (o1' & o2 & Hbase' & Hex & Hadd).
  assert (o1' = o1) as -> by congruence.
  apply exclude_tables_frame in Hex.
  apply add_compatibility_options_Ok in Hadd as (masks & Hmasks & ->).
  unfold before_compatibility. split.
  - intros ->. simpl. split; [done|].
    apply includes_fold_left, includes_lor_r.
  - intros Hflag.
    assert (optional (opt_ocimds u) false = false) as ->.
    { destruct (opt_ocimds u) as [[]|]; done. }
    simpl. rewrite Hex. simpl. split; [done|]. by exists masks.
Qed.

(** *** Contents of the exclusion map *)

Lemma emplace_excluded_None schema table (m : gmap string (gset string)) s :
  emplace_excluded schema table m !! s = None ↔ schema ≠ s ∧ m !! s = None.
Proof.
  unfold emplace_excluded. rewrite lookup_insert.
  destruct (decide (schema = s)); [|tauto].
  split; [done|]. by intros [? _].
Qed.

Lemma emplace_excluded_elem schema table (m : gmap string (gset string)) s x :
  x ∈ emplace_excluded schema table m !!! s ↔
  x ∈ m !!! s ∨ (schema = s ∧ x = table).
Proof.
  unfold emplace_excluded.
  destruct (decide (schema = s)) as [->|Hne].
  - rewrite lookup_total_insert_eq, elem_of_union, elem_of_singleton. tauto.
  - rewrite lookup_total_insert_ne by done. tauto.
Qed.

Lemma exclude_tables_None tables o o' s :
  exclude_tables tables o = Ok o' →
  m_excluded_tables o' !! s = None ↔
  m_excluded_tables o !! s = None ∧
  ∀ t table, t ∈ tables → split_schema_and_table t ≠ Ok (s, table).
Proof.
  revert o. induction tables as [|t tables IH]; intros o; simpl.
  - intros [= <-]. split; [|tauto].
    intros Hnone. split; [done|]. intros ?? Hin. by apply elem_of_nil in Hin.
  - destruct (exclude_table t o) as [o1|] eqn:Hstep; simpl; [|done].
    apply exclude_table_Ok in Hstep as (schema & table & Hsplit & _ & ->).
    intros Hrest. rewrite (IH _ Hrest). simpl.
    rewrite emplace_excluded_None. split.
    + intros [[Hne Hnone] Hall]. split; [done|].
      intros t' table' [->|Hin]%elem_of_cons; [congruence|by apply Hall].
    + intros [Hnone Hall]. repeat split; [|done|].
      * intros ->. by eapply Hall; [left|].
      * intros t' table' Hin. apply Hall. by right.
Qed.

Lemma exclude_tables_elem tables o o' s x :
  exclude_tables tables o = Ok o' →
  x ∈ m_excluded_tables o' !!! s ↔
  x ∈ m_excluded_tables o !!! s ∨
  ∃ t, t ∈ tables ∧ split_schema_and_table t = Ok (s, x).
Proof.
  revert o. induction tables as [|t tables IH]; intros o; simpl.
  - intros [= <-]. split; [by left|]. intros [?|(t & Hin & _)]; [done|].
    by apply elem_of_nil in Hin.
  - destruct (exclude_table t o) as [o1|] eqn:Hstep; simpl; [|done].
    apply exclude_table_Ok in Hstep as (schema & table & Hsplit & _ & ->).
    intros Hrest. rewrite (IH _ Hrest). simpl.
    rewrite emplace_excluded_elem. split.
    + intros [[?|[-> ->]]|(t' & Hin & Ht')].
      * by left.
      * right. exists t. split; [left|done].
      * right. exists t'. split; [by right|done].
    + intros [?|(t' & [->|Hin]%elem_of_cons & Ht')].
      * by left; left.
      * left; right. split; congruence.
      * right. by exists t'.
Qed.

Lemma exclude_tables_returns tables o :
  returns (exclude_tables tables o) ↔
  Forall (λ t, returns (exclude_table t o)) tables.
Proof.
  assert (∀ t o1 o2, returns (exclude_table t o1) → returns (exclude_table t o2))
    as Hstate.
  { intros t o1 o2 [o' Hok].
    apply exclude_table_Ok in Hok as (schema & table & Hsplit & Hne & _).
    unfold exclude_table. rewrite Hsplit.
    destruct (decide (schema = "")); [done|by eexists]. }
  revert o. induction tables as [|t tables IH]; intros o; simpl.
  - split; [constructor|by eexists].
  - split.
    + intros [o' Hok].
      destruct (exclude_table t o) as [o1|] eqn:Hstep; simpl in Hok; [|done].
      constructor; [by eexists|].
      assert (returns (exclude_tables tables o1)) as Hrest by by exists o'.
      apply IH in Hrest. eapply Forall_impl; [done|].
      intros t'. apply Hstate.
    + intros [[o1 Hstep] Hrest]%Forall_cons. rewrite Hstep. simpl.
      apply IH. eapply Forall_impl; [done|]. intros t'. apply Hstate.
Qed.

Lemma exclude_tables_same_entries tables1 tables2 o o1 :
  (∀ t, t ∈ tables1 ↔ t ∈ tables2) →
  exclude_tables tables1 o = Ok o1 →
  exclude_tables tables2 o = Ok o1.
Proof.
  intros Hsame H1.
  assert (returns (exclude_tables tables2 o)) as [o2 H2].
  { apply exclude_tables_returns, Forall_forall. intros t Hin.
    assert (returns (exclude_tables tables1 o)) as Hret by by exists o1.
    apply exclude_tables_returns in Hret.
    rewrite Forall_forall in Hret. by apply Hret, Hsame. }
  rewrite H2. f_equal.
  rewrite (exclude_tables_frame _ _ _ H1), (exclude_tables_frame _ _ _ H2).
  f_equal. apply map_eq. intros s.
  destruct (m_excluded_tables o1 !! s) as [X1|] eqn:Hs1.
  - destruct (m_excluded_tables o2 !! s) as [X2|] eqn:Hs2.
    + f_equal. apply set_eq. intros x.
      pose proof (exclude_tables_elem _ _ _ s x H1) as E1.
      pose proof (exclude_tables_elem _ _ _ s x H2) as E2.
      rewrite lookup_total_alt, Hs1 in E1.
      rewrite lookup_total_alt, Hs2 in E2. simpl in *.
      rewrite E1, E2.
      split; (intros [?|(t & Hin & Ht)]; [by left|right]);
        exists t; (split; [by apply Hsame|done]).
    + apply (exclude_tables_None _ _ _ s H2) in Hs2 as [Hnone Hall].
      assert (m_excluded_tables o1 !! s = None) as Habs; [|congruence].
      apply (exclude_tables_None _ _ _ s H1). split; [done|].
      intros t table Hin. by apply Hall, Hsame.
  - apply (exclude_tables_None _ _ _ s H2).
    apply (exclude_tables_None _ _ _ s H1) in Hs1 as [Hnone Hall].
    split; [done|]. intros t table Hin. by apply Hall, Hsame.
Qed.

(** C8.  Two exclusion lists with the same entries, whatever their order
    and however often an entry is repeated, unpack to the same sets of
    excluded tables per schema. *)
Theorem exclusions_idempotent_and_unordered u tables1 tables2 o o1 :
  (∀ t, t ∈ tables1 ↔ t ∈ tables2) →
  unpack_options (with_excludeTables tables1 u) o = Ok o1 →
  ∃ o2,
    unpack_options (with_excludeTables tables2 u) o = Ok o2 ∧
    m_excluded_tables o2 = m_excluded_tables o1.
Proof.
  intros Hsame Hunpack. exists o1. split; [|done].
  apply unpack_options_Ok in Hunpack as (o' & o2 & Hbase & Hex & Hadd).
  rewrite unpack_options_unfold. simpl in *.
  rewrite Hbase. simpl.
  change (before_exclusions (with_excludeTables tables2 u) o')
    with (before_exclusions (with_excludeTables tables1 u) o').
  by rewrite (exclude_tables_same_entries _ _ _ _ Hsame Hex).
Qed.

(** *** Exclusions outside the requested schemas *)

Lemma unpack_options_excluded u o o' :
  unpack_options u o = Ok o' →
  ∃ o1 o2,
    Ddl_unpack_options (opt_ddl u) o = Ok o1 ∧
    exclude_tables (optional (opt_excludeTables u) [])
      (before_exclusions u o1) = Ok o2 ∧
    m_excluded_tables o' = m_excluded_tables o2.
Proof.
  intros Hunpack.
  apply unpack_options_Ok in Hunpack as (o1 & o2 & Hbase & Hex & Hadd).
  exists o1, o2. repeat split; [done..|].
  apply add_compatibility_options_Ok in Hadd as (masks & _ & ->).
  unfold before_compatibility. by destruct (optional (opt_ocimds u) false).
Qed.

(** C1, as the code has it.  Exclusion entries are recorded whether or not
    their schema is among the requested schemas: after a successful
    unpacking every entry [schema.table] of the exclusion list is in the set
    of excluded tables of its schema, and validation then fails only if the
    validation of the base class fails or the list of requested schemas is
    empty. *)
Theorem foreign_exclusion_accepted u o o' tables :
  unpack_options u o = Ok o' →
  opt_excludeTables u = Some tables →
  (∀ t schema table,
     t ∈ tables → split_schema_and_table t = Ok (schema, table) →
     table ∈ m_excluded_tables o' !!! schema)
  ∧ (m_schemas o' ≠ ∅ → validate_options o' = Ddl_validate_options o').
Proof.
  intros Hunpack Htables. split.
  - intros t schema table Hin Hsplit.
    apply unpack_options_excluded in Hunpack as (o1 & o2 & _ & Hex & ->).
    rewrite Htables in Hex. simpl in Hex.
    apply (exclude_tables_elem _ _ _ schema table Hex).
    right. by exists t.
  - apply validate_options_nonempty.
Qed.

End facts.

End DumpFacts.

(** ** The options object with the collaborators of the design document *)

Module DumpExamples.
Import Dump DumpSpec DumpFacts.

Lemma spec_splitter_contract : splitter_contract.
Proof.
  intros t. simpl. unfold spec_split_schema_and_table.
  destruct (split_at_dot t) as [[schema table]|]; [|by eexists].
  destruct (decide _) as [(_ & ? & _)|]; [done|by eexists].
Qed.

Lemma split_at_dot_Some s before after :
  split_at_dot s = Some (before, after) ↔
  s = before +:+ String "."%char after ∧ split_at_dot before = None.
Proof.
  revert before after. induction s as [|c s IH]; intros before after; simpl.
  - split; [done|]. intros [Heq _]. by destruct before.
  - destruct (decide (c = "."%char)) as [->|Hc].
    + split.
      * by intros [= <- <-].
      * intros [Heq Hnone]. destruct before as [|c' before]; simpl in *.
        { by injection Heq as <-. }
        injection Heq as <- _. by destruct (decide _).
    + split.
      * intros Hsome.
        destruct (split_at_dot s) as [[b a]|] eqn:Hs; [|done].
        injection Hsome as <- <-.
        destruct (proj1 (IH b a) eq_refl) as [-> Hnone]. simpl.
        destruct (decide _); [done|]. by rewrite Hnone.
      * intros [Heq Hnone]. destruct before as [|c' before]; simpl in *.
        { by injection Heq as ->. }
        injection Heq as <- ->.
        destruct (decide _); [done|].
        destruct (split_at_dot before) as [[]|] eqn:Hb; [done|].
        assert (split_at_dot (before +:+ String "."%char after)
                = Some (before, after)) as -> by by apply IH.
        done.
Qed.

(** With the splitter of the design document, the well-formed entries are
    the texts [schema.table] with one dot and two non-empty parts. *)
Lemma spec_well_formed_entry t :
  well_formed_entry t ↔
  ∃ schema table,
    t = schema +:+ "." +:+ table ∧ schema ≠ "" ∧ table ≠ "" ∧
    split_at_dot schema = None ∧ split_at_dot table = None.
Proof.
  unfold well_formed_entry. simpl. unfold spec_split_schema_and_table.
  split.
  - intros (schema & table & Hsplit & Hschema & Htable).
    destruct (split_at_dot t) as [[s tb]|] eqn:Ht; [|done].
    destruct (decide _) as [(_ & _ & Hnone)|]; [|done].
    injection Hsplit as -> ->.
    apply split_at_dot_Some in Ht as [-> ?]. by exists schema, table.
  - intros (schema & table & -> & Hschema & Htable & Hs & Htb).
    exists schema, table.
    assert (split_at_dot (schema +:+ "." +:+ table) = Some (schema, table))
      as -> by by apply split_at_dot_Some.
    by destruct (decide _) as [|[]].
Qed.

Lemma spec_configuration_errors_only : configuration_errors_only.
Proof.
  repeat split.
  - intros d o e. simpl. done.
  - intros t e Hthrow. pose proof (spec_splitter_contract t) as Hcontract.
    simpl in *. rewrite Hthrow in Hcontract. done.
  - intros name e. simpl. unfold spec_to_compatibility_option.
    destruct (find_option _ name); [done|]. by intros [= <-].
Qed.

(** C1, counterexample.  With [s1] requested and [s2.t] excluded, unpacking
    succeeds, [s2] is not among the requested schemas, and validation
    passes. *)
Lemma foreign_exclusion_not_rejected :
  ∃ o,
    unpack_options foreign_exclusion (new_with_schemas ["s1"] "dump") = Ok o ∧
    split_schema_and_table "s2.t" = Ok ("s2", "t") ∧
    ("s2" ∉ m_schemas o) ∧
    validate_options o = Ok ().
Proof.
  eexists. split; [vm_compute; reflexivity|].
  split; [reflexivity|]. split; [|reflexivity].
  vm_compute. discriminate.
Qed.

Lemma foreign_exclusion_accepted_witness :
  ∃ o,
    unpack_options foreign_exclusion (new_with_schemas ["s1"] "dump") = Ok o ∧
    "t" ∈ m_excluded_tables o !!! "s2".
Proof.
  eexists. split; [vm_compute; reflexivity|].
  eapply (foreign_exclusion_accepted foreign_exclusion
            (new_with_schemas ["s1"] "dump") _ ["s2.t"]).
  - vm_compute; reflexivity.
  - reflexivity.
  - left.
  - reflexivity.
Defined.

Lemma unpack_rejects_malformed_exclusion_witness :
  ∃ before t after what,
    ["s1.t1"; "nodot"; "s1.t2"] = before ++ t :: after ∧
    Forall well_formed_entry before ∧ ¬ well_formed_entry t ∧
    unpack_options malformed_exclusion (new_with_schemas ["s1"] "dump")
      = Throw (invalid_argument what) ∧
    mentions t what.
Proof.
  apply (unpack_rejects_malformed_exclusion malformed_exclusion
           (new_with_schemas ["s1"] "dump") ["s1.t1"; "nodot"; "s1.t2"]).
  - exact spec_splitter_contract.
  - reflexivity.
  - intros Hall. inversion Hall as [|? ? _ Hrest]; subst.
    inversion Hrest as [|? ? (schema & table & Hsplit & _) _]; subst.
    vm_compute in Hsplit. discriminate.
  - by eexists.
Defined.

(** An entry without a table, and one without a schema, are refused with
    a message that quotes them. *)
Example empty_table_rejected :
  unpack_options empty_table_exclusion (new_with_schemas ["s1"] "dump")
  = Throw (invalid_argument
      "Failed to parse table to be excluded 's1.': Invalid object name").
Proof. reflexivity. Qed.

Example empty_schema_rejected :
  unpack_options empty_schema_exclusion (new_with_schemas ["s1"] "dump")
  = Throw (invalid_argument
      "Failed to parse table to be excluded '.t1': Invalid object name").
Proof. reflexivity. Qed.

Lemma unknown_compatibility_option_rejected_witness :
  ∃ e,
    unpack_options unknown_option (new_with_schemas ["s1"] "dump") = Throw e ∧
    is_invalid_argument e = true.
Proof.
  apply (unknown_compatibility_option_rejected unknown_option
           (new_with_schemas ["s1"] "dump")
           ["strip-definer"; "no-such-option"] "no-such-option").
  - exact spec_configuration_errors_only.
  - reflexivity.
  - right; left.
  - eexists. vm_compute. reflexivity.
Defined.

Lemma ocimds_preset_witness :
  ∃ o,
    unpack_options target_mode (new_with_schemas ["s1"] "dump") = Ok o ∧
    m_mds o = Some (mk_Version "8.0.21") ∧
    includes (m_compatibility_options o) 1.
Proof.
  eexists. split; [vm_compute; reflexivity|].
  refine (proj1 (ocimds_preset target_mode (new_with_schemas ["s1"] "dump")
                   (new_with_schemas ["s1"] "dump") _ _ _) _).
  - reflexivity.
  - vm_compute; reflexivity.
  - reflexivity.
Defined.

Lemma exclusions_idempotent_and_unordered_witness :
  ∃ o2,
    unpack_options (with_excludeTables ["s1.b"; "s1.a"] foreign_exclusion)
      (new_with_schemas ["s1"] "dump") = Ok o2 ∧
    m_excluded_tables o2 = m_excluded_tables excluded_a_b.
Proof.
  apply (exclusions_idempotent_and_unordered foreign_exclusion
           ["s1.a"; "s1.b"; "s1.a"] ["s1.b"; "s1.a"]
           (new_with_schemas ["s1"] "dump") excluded_a_b).
  - intros t. rewrite !elem_of_cons, !elem_of_nil. tauto.
  - vm_compute. reflexivity.
Defined.

End DumpExamples.

(** ** Chunk planning *)

Module PlannerFacts.
Import Planner.











(** No chunk has more rows than the target size. *)
Lemma plan_from_bounded fuel index offset rows size c :
  0 < size → offset < rows →
  c ∈ plan_from fuel index offset rows size →
  chunk_end c - chunk_begin c ≤ size.
Proof.
  intros Hsize. revert index offset.
  induction fuel as [|fuel IH]; intros index offset Hlt; simpl.
  - by intros ?%elem_of_nil.
  - destruct (Z.leb_spec (rows - offset) size).
    + intros ->%list_elem_of_singleton. simpl. lia.
    + intros [->|Hin]%elem_of_cons; [simpl; lia|].
      eapply IH; [|done]. lia.
Qed.

Lemma plan_bounded rows size c :
  0 < rows → 0 < size → c ∈ plan true rows size →
  chunk_end c - chunk_begin c ≤ size.
Proof. intros Hrows Hsize. by apply plan_from_bounded. Qed.

(** The plan of 250 rows in chunks of 100. *)
Example plan_250_100 :
  plan true 250 100 = [mk_Chunk 0 0 100; mk_Chunk 1 100 200; mk_Chunk 2 200 250].
Proof. reflexivity. Qed.

(** Without an ordering key the table is one chunk. *)
Example plan_without_key rows size :
  plan false rows size = [mk_Chunk 0 0 rows].
Proof. reflexivity. Qed.

End PlannerFacts.

(** ** Result sets *)

Module MysqlxFacts.
Import Mysqlx.

Section facts.
Context {Row double : Type} `{!Client Row double}.

Implicit Types (res : Result Row) (record out : Value double).
Implicit Types (records array : list (Value double)).

(** *** Warnings *)

Lemma BaseResult_count_matches (r : BaseResult) :
  count_matches (BaseResult_get_member r "warningCount")
                (BaseResult_get_member r "warnings").
Proof.
  exists (get_warning_count r), (map warning_row (getWarnings (_result r))).
  unfold BaseResult_get_member, get_warning_count.
  destruct (getWarnings (_result r)) as [|w warnings];
    repeat (case_decide; try discriminate); try done.
  simpl. rewrite length_map. repeat split; [lia|done].
Qed.

(** C9.  In every result class the member [warningCount] is the length of
    the array returned as the member [warnings], and it is zero exactly
    when that array is empty.  [DocResult] has the members of
    [BaseResult]; reading them from a [RowResult] or an [SqlResult] leaves
    the object as it was. *)
Theorem warning_count_is_length_of_warnings (r : BaseResult) (rr : RowResult) :
  count_matches (BaseResult_get_member r "warningCount")
                (BaseResult_get_member r "warnings")
  ∧ count_matches (Result_get_member r "warningCount")
                  (Result_get_member r "warnings")
  ∧ count_matches (RowResult_get_member rr "warningCount").1
                  (RowResult_get_member rr "warnings").1
  ∧ count_matches (SqlResult_get_member rr "warningCount").1
                  (SqlResult_get_member rr "warnings").1
  ∧ (RowResult_get_member rr "warningCount").2 = rr
  ∧ (RowResult_get_member rr "warnings").2 = rr
  ∧ (SqlResult_get_member rr "warningCount").2 = rr
  ∧ (SqlResult_get_member rr "warnings").2 = rr.
Proof.
  unfold SqlResult_get_member, RowResult_get_member, Result_get_member.
  repeat (case_decide; try discriminate). simpl.
  repeat split; apply BaseResult_count_matches.
Qed.

(** *** The loop of [fetch_all] *)

Section loop.
Variable fetch_one : Result Row → result (Value double) * Result Row.


(** With an iteration for each record the loop returns them all. *)
Lemma fetch_loop_complete res0 records res' :
  drains fetch_one res0 records res' →
  ∀ fuel array,
    (length records ≤ fuel)%nat →
    ∃ record res,
      fetch_one res0 = (Ok record, res) ∧
      fetch_loop fetch_one fuel record array res
        = Some (Ok (Array (array ++ records)), res').
Proof.
  induction 1 as [res0 last res' Hfetch Hinvalid
                 |res0 record res1 records res' Hfetch Hvalid _ IH];
    intros fuel array Hfuel.
  - exists last, res'. split; [done|].
    rewrite app_nil_r. destruct fuel; simpl; by rewrite Hinvalid.
  - exists record, res1. split; [done|].
    destruct fuel as [|fuel]; simpl in Hfuel; [lia|].
    simpl. rewrite Hvalid.
    destruct (IH fuel (array ++ [record]) ltac:(lia))
      as (record1 & res2 & -> & ->).
    by rewrite <-app_assoc.
Qed.


End loop.

Lemma ensure_count_nil context :
  ensure_count 0 context ([] : list (Value double)) = Ok ().
Proof. done. Qed.



(** *** [RowResult] *)

Lemma with_unread_unread res : with_unread (unread res) res = res.
Proof. by destruct res. Qed.

Lemma RowResult_fetch_one_row metadata row rows res :
  columnMetadata res = Some metadata → metadata ≠ [] →
  RowResult_fetch_one [] (with_unread (row :: rows) res)
    = (Ok (Row_record metadata row), with_unread rows res).
Proof.
  intros Hmd Hne. destruct res. simpl in Hmd. subst.
  unfold RowResult_fetch_one. rewrite ensure_count_nil. simpl.
  destruct (decide (0 < length metadata)%nat) as [|Hlen]; [done|].
  destruct metadata; [done|]. simpl in Hlen. lia.
Qed.

Lemma RowResult_fetch_one_exhausted metadata res :
  columnMetadata res = Some metadata →
  RowResult_fetch_one [] (with_unread [] res)
    = (Ok Undefined, with_unread [] res).
Proof.
  intros Hmd. destruct res. simpl in Hmd. subst.
  unfold RowResult_fetch_one. rewrite ensure_count_nil. simpl.
  by destruct (decide (0 < length metadata)%nat).
Qed.

Lemma RowResult_fetch_one_no_columns res :
  columnMetadata res = Some [] →
  RowResult_fetch_one [] res = (Ok Undefined, res).
Proof.
  intros Hmd. unfold RowResult_fetch_one.
  rewrite ensure_count_nil, Hmd. simpl.
  destruct (decide (0 < 0)%nat); [lia|done].
Qed.

Lemma RowResult_drains metadata rows res :
  columnMetadata res = Some metadata → metadata ≠ [] →
  drains (RowResult_fetch_one []) (with_unread rows res)
    (map (Row_record metadata) rows) (with_unread [] res).
Proof.
  intros Hmd Hne. induction rows as [|row rows IH]; simpl.
  - eapply drains_done; [by eapply RowResult_fetch_one_exhausted|done].
  - eapply drains_more; [by apply RowResult_fetch_one_row|done|done].
Qed.

(** The body shared by the two [fetch_all], once the argument count has
    been checked. *)
Lemma fetch_all_body_complete
    (fetch_one : Result Row → result (Value double) * Result Row)
    res records res' fuel :
  drains fetch_one res records res' → (length records ≤ fuel)%nat →
  match fetch_one res with
  | (Ok record, res1) => fetch_loop fetch_one fuel record [] res1
  | (Throw e, res1) => Some (Throw e, res1)
  end = Some (Ok (Array records), res').
Proof.
  intros Hdrains Hfuel.
  destruct (fetch_loop_complete _ _ _ _ Hdrains fuel [] Hfuel)
    as (record & res1 & -> & ->).
  done.
Qed.


(** *** [DocResult] *)

Lemma DocResult_fetch_one_row md metadata row rows res :
  columnMetadata res = Some (md :: metadata) → document_row row →
  DocResult_fetch_one [] (with_unread (row :: rows) res)
    = (Ok (Doc_record row), with_unread rows res) ∧
  Value_is_valid (Doc_record row) = true.
Proof.
  intros Hmd (document & Hparse & Hvalid).
  destruct res. simpl in Hmd. subst.
  unfold DocResult_fetch_one, Doc_record.
  rewrite ensure_count_nil. simpl. by rewrite Hparse.
Qed.

Lemma DocResult_fetch_one_exhausted res :
  DocResult_fetch_one [] (with_unread [] res)
    = (Ok Null, with_unread [] res).
Proof.
  unfold DocResult_fetch_one. rewrite ensure_count_nil. simpl.
  by destruct (columnMetadata res) as [[|]|].
Qed.

Lemma DocResult_fetch_one_no_columns res :
  columnMetadata res = None ∨ columnMetadata res = Some [] →
  DocResult_fetch_one [] res = (Ok Null, res).
Proof.
  unfold DocResult_fetch_one. rewrite ensure_count_nil.
  by intros [->| ->].
Qed.

Lemma DocResult_drains md metadata rows res :
  columnMetadata res = Some (md :: metadata) → Forall document_row rows →
  drains (DocResult_fetch_one []) (with_unread rows res)
    (map Doc_record rows) (with_unread [] res).
Proof.
  intros Hmd. induction 1 as [|row rows Hrow _ IH]; simpl.
  - eapply drains_done; [apply DocResult_fetch_one_exhausted|done].
  - destruct (DocResult_fetch_one_row md metadata row rows res Hmd Hrow)
      as [Hone Hvalid].
    by eapply drains_more.
Qed.


(** *** Termination *)





(** *** Nothing left to read *)




End facts.

End MysqlxFacts.

(** ** Result sets of the client with textual rows *)

Module MysqlxExamples.
Import Mysqlx TextClient MysqlxFacts MoreExamples.



(** Both rows are fetched, and nothing afterwards. *)
Example fetch_all_two_documents :
  ∃ res',
    DocResult_fetch_all 2 [] two_documents
      = Some (Ok (Array [Str "{}"; Str "{}"]), res') ∧
    DocResult_fetch_one [] res' = (Ok Null, res') ∧
    DocResult_fetch_all 0 [] res' = Some (Ok (Array []), res').
Proof. eexists. repeat split; reflexivity. Qed.

(** One warning: the count is one and the array has one row. *)
Example warning_members_two_documents :
  let r := mk_BaseResult two_documents 0 in
  BaseResult_get_member r "warningCount" = Ok (UInteger 1) ∧
  BaseResult_get_member r "warnings" =
    Ok (Array [wrap [mk_item "level" (Str "Note") None;
                     mk_item "code" (Integer 1051) None;
                     mk_item "message" (Str "Unknown table") None]]).
Proof. split; reflexivity. Qed.

End MysqlxExamples.

(** ** More on option unpacking *)

Module DumpMoreFacts.
Import Dump DumpFacts DumpMore.

Section facts.
Context {Base DdlOpts : Type} `{!Collaborators Base DdlOpts}.

Implicit Types (o : Dump_schemas_options Base) (u : Option_unpacker DdlOpts).
Implicit Types (t schema table name : string) (tables names : list string).

Lemma accepted_entry_returns t o :
  accepted_entry t → returns (exclude_table t o).
Proof.
  intros (schema & table & Hsplit & Hne). unfold exclude_table.
  rewrite Hsplit. destruct (decide (schema = "")); [done|by eexists].
Qed.

Lemma exclude_tables_app before after o :
  exclude_tables (before ++ after) o
  = (o' ← exclude_tables before o; exclude_tables after o').
Proof.
  revert o. induction before as [|t before IH]; intros o; simpl; [done|].
  destruct (exclude_table t o) as [o1|e]; simpl; [apply IH|done].
Qed.

Lemma exclude_tables_accepted before o :
  Forall accepted_entry before → returns (exclude_tables before o).
Proof.
  intros Hall. apply exclude_tables_returns.
  eapply Forall_impl; [done|]. intros t. apply accepted_entry_returns.
Qed.

(** The exception of the first entry that the loop does not take. *)
Lemma exclude_tables_first_refused before t after o e :
  Forall accepted_entry before →
  (∀ o1, exclude_table t o1 = Throw e) →
  exclude_tables (before ++ t :: after) o = Throw e.
Proof.
  intros Hall Hthrow. rewrite exclude_tables_app.
  destruct (exclude_tables_accepted before o Hall) as [o1 ->]. simpl.
  by rewrite Hthrow.
Qed.

Lemma unpack_options_first_refused u o o1 before t after e :
  Ddl_unpack_options (opt_ddl u) o = Ok o1 →
  opt_excludeTables u = Some (before ++ t :: after) →
  Forall accepted_entry before →
  (∀ o2, exclude_table t o2 = Throw e) →
  unpack_options u o = Throw e.
Proof.
  intros Hbase Htables Hall Hthrow.
  rewrite unpack_options_unfold, Hbase, Htables. simpl.
  by rewrite (exclude_tables_first_refused _ _ _ _ e Hall Hthrow).
Qed.

(** X1.  The exclusion loop stops at the first entry it does not take, and
    the exception says why: a [std::runtime_error] of the splitter becomes a
    [std::invalid_argument] that quotes the entry and the reason; any other
    exception of the splitter leaves unchanged; an entry without a schema
    gives the message about the expected form.  The entries after it, and
    the compatibility options, play no part. *)
Theorem first_refused_exclusion u o o1 before t after :
  Ddl_unpack_options (opt_ddl u) o = Ok o1 →
  opt_excludeTables u = Some (before ++ t :: after) →
  Forall accepted_entry before →
  (∀ what, split_schema_and_table t = Throw (runtime_error what) →
     unpack_options u o = Throw (invalid_argument (parse_failure t what)))
  ∧ (∀ e, split_schema_and_table t = Throw e →
       (∀ what, e ≠ runtime_error what) →
       unpack_options u o = Throw e)
  ∧ (∀ table, split_schema_and_table t = Ok ("", table) →
       unpack_options u o = Throw (invalid_argument (wrong_form t))).
Proof.
  intros Hbase Htables Hall. repeat split.
  - intros what Hsplit.
    eapply unpack_options_first_refused; [done..|].
    intros o2. unfold exclude_table. by rewrite Hsplit.
  - intros e Hsplit Hother.
    eapply unpack_options_first_refused; [done..|].
    intros o2. unfold exclude_table. rewrite Hsplit.
    destruct e; [done| |done]. by destruct (Hother what).
  - intros table Hsplit.
    eapply unpack_options_first_refused; [done..|].
    intros o2. unfold exclude_table. by rewrite Hsplit.
Qed.

(** X2.  When the base class and the exclusion loop have passed, the
    exception of unpacking is the one the parser of option names throws for
    the first name it does not know, unchanged. *)
Theorem first_unknown_compatibility_option u o o1 before bad after e :
  Ddl_unpack_options (opt_ddl u) o = Ok o1 →
  Forall accepted_entry (optional (opt_excludeTables u) []) →
  opt_compatibility u = Some (before ++ bad :: after) →
  Forall known_option before →
  to_compatibility_option bad = Throw e →
  unpack_options u o = Throw e.
Proof.
  intros Hbase Hall Hnames Hknown Hbad.
  rewrite unpack_options_unfold, Hbase, Hnames. simpl.
  destruct (exclude_tables_accepted _ (before_exclusions u o1) Hall)
    as [o2 ->].
  simpl. generalize (before_compatibility u o2). clear -Hknown Hbad.
  induction Hknown as [|name before [c Hc] _ IH]; intros o3; simpl.
  - by rewrite Hbad.
  - rewrite Hc. simpl. apply IH.
Qed.

(** X3.  Of the state left by the base class, unpacking leaves the base
    part and the requested schemas as they are, and sets each of the two
    flags to the value of its key, or leaves it when the key is absent. *)
Theorem unpack_options_frame u o o1 o' :
  Ddl_unpack_options (opt_ddl u) o = Ok o1 →
  unpack_options u o = Ok o' →
  m_base o' = m_base o1
  ∧ m_schemas o' = m_schemas o1
  ∧ m_dump_events o' = optional (opt_events u) (m_dump_events o1)
  ∧ m_dump_routines o' = optional (opt_routines u) (m_dump_routines o1).
Proof.
  intros Hbase Hunpack.
  apply unpack_options_Ok in Hunpack as (o1' & o2 & Hbase' & Hex & Hadd).
  assert (o1' = o1) as -> by congruence.
  apply exclude_tables_frame in Hex.
  apply add_compatibility_options_Ok in Hadd as (masks & _ & ->).
  rewrite Hex. unfold before_compatibility.
  by destruct (optional (opt_ocimds u) false).
Qed.

(** X4.  After unpacking, a table is excluded from a schema exactly when it
    was so in the state left by the base class or an entry of the exclusion
    list splits into that schema and that table; a schema has no entry in
    the map exactly when it had none and no entry of the list names it. *)
Theorem excluded_tables_exactly u o o1 o' schema table :
  Ddl_unpack_options (opt_ddl u) o = Ok o1 →
  unpack_options u o = Ok o' →
  (table ∈ m_excluded_tables o' !!! schema ↔
   table ∈ m_excluded_tables o1 !!! schema ∨
   ∃ t, t ∈ optional (opt_excludeTables u) [] ∧
        split_schema_and_table t = Ok (schema, table))
  ∧ (m_excluded_tables o' !! schema = None ↔
     m_excluded_tables o1 !! schema = None ∧
     ∀ t table', t ∈ optional (opt_excludeTables u) [] →
                 split_schema_and_table t ≠ Ok (schema, table')).
Proof.
  intros Hbase Hunpack.
  apply unpack_options_excluded in Hunpack as (o1' & o2 & Hbase' & Hex & ->).
  assert (o1' = o1) as -> by congruence.
  split.
  - by rewrite (exclude_tables_elem _ _ _ schema table Hex).
  - by rewrite (exclude_tables_None _ _ _ schema Hex).
Qed.

(** *** The option set as a set of names *)

Lemma add_compatibility_options_masks names masks o :
  Forall2 (λ name c, to_compatibility_option name = Ok c) names masks →
  add_compatibility_options names o
  = Ok (set_compatibility_options
          (fold_left Z.lor masks (m_compatibility_options o)) o).
Proof.
  intros Hall. revert o.
  induction Hall as [|name c names masks Hc _ IH]; intros o; simpl.
  - by destruct o.
  - rewrite Hc. simpl. by rewrite IH.
Qed.

Lemma masks_elem_of names masks c :
  Forall2 (λ name c, to_compatibility_option name = Ok c) names masks →
  c ∈ masks ↔ ∃ name, name ∈ names ∧ to_compatibility_option name = Ok c.
Proof.
  induction 1 as [|name c' names masks Hc _ IH].
  - split; [by intros ?%elem_of_nil|]. by intros (? & ?%elem_of_nil & _).
  - rewrite elem_of_cons, IH. split.
    + intros [->|(n & Hin & Hn)].
      * exists name. split; [left|done].
      * exists n. split; [by right|done].
    + intros (n & [->|Hin]%elem_of_cons & Hn).
      * left. congruence.
      * right. by exists n.
Qed.

Lemma fold_left_lor_testbit masks c n :
  Z.testbit (fold_left Z.lor masks c) n
  = Z.testbit c n || existsb (λ m, Z.testbit m n) masks.
Proof.
  revert c. induction masks as [|m masks IH]; intros c; simpl.
  - by rewrite orb_false_r.
  - by rewrite IH, Z.lor_spec, orb_assoc.
Qed.

Lemma fold_left_lor_same_masks masks1 masks2 c :
  (∀ m, m ∈ masks1 ↔ m ∈ masks2) →
  fold_left Z.lor masks1 c = fold_left Z.lor masks2 c.
Proof.
  intros Hsame. apply Z.bits_inj'. intros n _.
  rewrite !fold_left_lor_testbit. f_equal.
  apply eq_true_iff_eq. rewrite !existsb_exists.
  split; intros (m & Hin & Hbit); exists m;
    (split; [apply list_elem_of_In, Hsame, list_elem_of_In, Hin|done]).
Qed.

(** X5.  The option set depends on the set of names listed under
    [compatibility] only: two lists with the same names, in any order and
    with any repetition, unpack to the same options. *)
Theorem compatibility_names_as_a_set u names1 names2 o o1 :
  (∀ name, name ∈ names1 ↔ name ∈ names2) →
  unpack_options (with_compatibility names1 u) o = Ok o1 →
  unpack_options (with_compatibility names2 u) o = Ok o1.
Proof.
  intros Hsame Hunpack.
  apply unpack_options_Ok in Hunpack as (o' & o2 & Hbase & Hex & Hadd).
  rewrite unpack_options_unfold. simpl in *. rewrite Hbase. simpl.
  change (before_exclusions (with_compatibility names2 u) o')
    with (before_exclusions (with_compatibility names1 u) o').
  rewrite Hex. simpl.
  change (before_compatibility (with_compatibility names2 u) o2)
    with (before_compatibility (with_compatibility names1 u) o2).
  generalize dependent (before_compatibility (with_compatibility names1 u) o2).
  intros o3 Hadd.
  apply add_compatibility_options_Ok in Hadd as (masks1 & Hmasks1 & ->).
  assert (∃ masks2,
            Forall2 (λ name c, to_compatibility_option name = Ok c)
              names2 masks2) as [masks2 Hmasks2].
  { assert (Forall (λ name, ∃ c, to_compatibility_option name = Ok c) names2)
      as Hknown.
    { apply Forall_forall. intros name Hin. apply Hsame in Hin.
      destruct (proj1 (list_elem_of_lookup _ _) Hin) as [i Hi].
      destruct (Forall2_lookup_l _ _ _ _ _ Hmasks1 Hi) as (c & _ & Hc).
      by exists c. }
    clear -Hknown. induction Hknown as [|name names [c Hc] _ [masks IH]].
    - exists []. constructor.
    - exists (c :: masks). by constructor. }
  rewrite (add_compatibility_options_masks _ _ _ Hmasks2). do 2 f_equal.
  apply fold_left_lor_same_masks. intros m.
  rewrite (masks_elem_of _ _ _ Hmasks1), (masks_elem_of _ _ _ Hmasks2).
  split; intros (name & Hin & Hname); exists name;
    (split; [by apply Hsame|done]).
Qed.

(** *** The constructors *)

(** X6.  The requested schemas are kept as a set: two lists with the same
    names build the same options object, a list builds an object without
    schemas exactly when it is empty, and the constructor without a list
    builds the object of the empty list, which validation refuses once the
    base class has passed it. *)
Theorem requested_schemas_as_a_set (schemas1 schemas2 : list string)
    (url : string) :
  ((∀ s, s ∈ schemas1 ↔ s ∈ schemas2) →
   new_with_schemas schemas1 url = new_with_schemas schemas2 url)
  ∧ (m_schemas (new_with_schemas schemas1 url) = ∅ ↔ schemas1 = [])
  ∧ new_without_schemas url = new_with_schemas [] url
  ∧ (Ddl_validate_options (new_without_schemas url) = Ok () →
     validate_options (new_without_schemas url)
     = Throw (invalid_argument
                "The 'schemas' parameter cannot be an empty list.")).
Proof.
  repeat split.
  - intros Hsame. unfold new_with_schemas. f_equal.
    apply set_eq. intros s. by rewrite !elem_of_list_to_set.
  - apply list_to_set_empty_iff.
  - by intros ->.
  - intros Hbase. unfold validate_options. rewrite Hbase. simpl.
    by destruct (decide _).
Qed.

End facts.

End DumpMoreFacts.

(** ** More on option unpacking, with the collaborators of the examples *)

Module DumpMoreExamples.
Import Dump DumpSpec DumpFacts DumpMore DumpMoreFacts.

Lemma first_refused_exclusion_witness :
  @unpack_options () () table_only_collaborators malformed_exclusion
    s1_options
  = Throw (invalid_argument (wrong_form "nodot")).
Proof.
  refine (proj2 (proj2
            (@first_refused_exclusion () () table_only_collaborators
               malformed_exclusion s1_options s1_options
               ["s1.t1"] "nodot" ["s1.t2"] _ _ _)) "nodot" _).
  - reflexivity.
  - reflexivity.
  - constructor; [|constructor]. by exists "s1", "t1".
  - reflexivity.
Defined.

(** With the splitter of the design document the same list is refused with
    the reason of the splitter. *)
Example first_refused_exclusion_parse_failure :
  unpack_options malformed_exclusion s1_options
  = Throw (invalid_argument (parse_failure "nodot" "Invalid object name")).
Proof. reflexivity. Qed.

Lemma first_unknown_compatibility_option_witness :
  unpack_options unknown_option s1_options
  = Throw (invalid_argument "Unknown compatibility option: no-such-option").
Proof.
  apply (first_unknown_compatibility_option unknown_option s1_options
           s1_options ["strip-definer"] "no-such-option" []).
  - reflexivity.
  - constructor.
  - reflexivity.
  - constructor; [|constructor]. by exists 1.
  - reflexivity.
Defined.

Lemma unpack_options_frame_witness :
  ∃ o',
    unpack_options target_mode s1_options = Ok o' ∧
    m_schemas o' = m_schemas s1_options ∧
    m_dump_events o' = true.
Proof.
  eexists. split; [vm_compute; reflexivity|].
  refine ((λ H, conj (proj1 (proj2 H)) (proj1 (proj2 (proj2 H))))
            (unpack_options_frame target_mode s1_options s1_options _ _ _)).
  - reflexivity.
  - vm_compute; reflexivity.
Defined.

Lemma excluded_tables_exactly_witness :
  ∃ o',
    unpack_options foreign_exclusion s1_options = Ok o' ∧
    m_excluded_tables o' !! "s1" = None.
Proof.
  eexists. split; [vm_compute; reflexivity|].
  eapply (excluded_tables_exactly foreign_exclusion s1_options s1_options _
            "s1" "t").
  - reflexivity.
  - vm_compute; reflexivity.
  - split; [reflexivity|].
    intros t table' ->%list_elem_of_singleton. discriminate.
Defined.

Lemma compatibility_names_as_a_set_witness :
  ∃ o',
    unpack_options
      (with_compatibility ["force-storage-engine"; "strip-definer"]
         repeated_options) s1_options = Ok o' ∧
    m_compatibility_options o' = 5.
Proof.
  exists (mk_options () {["s1"]} ∅ true true 5 (Some (mk_Version "8.0.21"))).
  split; [|reflexivity].
  apply (compatibility_names_as_a_set repeated_options
           ["strip-definer"; "force-storage-engine"; "strip-definer"]
           ["force-storage-engine"; "strip-definer"] s1_options).
  - intros name. rewrite !elem_of_cons, !elem_of_nil. tauto.
  - vm_compute. reflexivity.
Defined.

End DumpMoreExamples.

(** ** More on result sets *)

Module MysqlxMoreFacts.
Import Mysqlx MysqlxFacts MysqlxMore.

Section facts.
Context {Row double : Type} `{!Client Row double}.

Implicit Types (res : Result Row) (md : ColumnMetadata) (row : Row).
Implicit Types (metadata : list ColumnMetadata) (rows : list Row).
Implicit Types (item : Row_item double) (items : list (Row_item double)).

(** *** The record of a row *)

Lemma field_to_value_fst md row index d d' :
  (field_to_value md row index d).1 = (field_to_value md row index d').1.
Proof. unfold field_to_value. by destruct (cm_type md). Qed.

Lemma field_to_value_snd md row index d :
  ¬ (cm_type md = UINT ∧ flag1 md = true) →
  (field_to_value md row index d).2 = d.
Proof.
  unfold field_to_value. intros Hno.
  destruct (cm_type md); try done.
  destruct (flag1 md); [|done]. by destruct Hno.
Qed.

(** One step of the loop over the columns. *)
Lemma add_items_cons md metadata row index d items :
  ∃ item d',
    add_items (md :: metadata) row index d items
      = add_items metadata row (S index) d' (items ++ [item]) ∧
    item_key item = cm_name md ∧
    item_value item = field_value md row index ∧
    item_display item = Some d' ∧
    (d ≠ "" → ¬ zero_filled md row index → d' = d).
Proof.
  simpl. unfold field_value, zero_filled.
  destruct (isNullField row index) eqn:Hnull.
  - eexists _, _. split; [done|]. repeat split.
    intros Hd _. by destruct (decide (d = "")).
  - destruct (field_to_value md row index d) as [v d1] eqn:Hfield.
    eexists _, _. split; [done|]. simpl. repeat split.
    + change v with (v, d1).1. rewrite <-Hfield. apply field_to_value_fst.
    + intros Hd Hno.
      assert (d1 = d) as ->.
      { change d1 with (v, d1).2. rewrite <-Hfield.
        apply field_to_value_snd. intros [? ?]. by apply Hno. }
      by destruct (decide (d = "")).
Qed.

Lemma add_items_spec metadata row index d items :
  ∃ news,
    add_items metadata row index d items = items ++ news ∧
    length news = length metadata ∧
    ∀ i md, metadata !! i = Some md →
      ∃ item, news !! i = Some item ∧
              item_key item = cm_name md ∧
              item_value item = field_value md row (index + i).
Proof.
  revert index d items.
  induction metadata as [|md metadata IH]; intros index d items.
  - exists []. simpl. rewrite app_nil_r. repeat split. intros i md Hi.
    by rewrite lookup_nil in Hi.
  - destruct (add_items_cons md metadata row index d items)
      as (item & d' & -> & Hkey & Hvalue & _).
    destruct (IH (S index) d' (items ++ [item])) as (news & -> & Hlen & Hnews).
    exists (item :: news). rewrite <-app_assoc. simpl.
    repeat split; [by rewrite Hlen|].
    intros [|i] md' Hi; simpl in Hi.
    + injection Hi as <-. exists item. rewrite Nat.add_0_r. by simpl.
    + destruct (Hnews i md' Hi) as (item' & ? & ? & Hv).
      exists item'. simpl. repeat split; [done..|].
      by rewrite Hv, Nat.add_succ_r.
Qed.

(** X7.  The record [fetch_one] builds from a row has one item per
    column, in the order of the columns; the item of a column has the name
    of the column as its key, and its value comes from that column and the
    row alone: null for a null field, the undefined value for any other
    field of a [SET] column, the text for a field of bytes. *)
Theorem record_follows_columns metadata row :
  ∃ items,
    Row_record metadata row = wrap items ∧
    length items = length metadata ∧
    ∀ i md, metadata !! i = Some md →
      ∃ item,
        items !! i = Some item ∧
        item_key item = cm_name md ∧
        item_value item = field_value md row i ∧
        (isNullField row i = true → item_value item = Null) ∧
        (isNullField row i = false → cm_type md = SET →
         item_value item = Undefined) ∧
        (isNullField row i = false → cm_type md = BYTES →
         item_value item = Str (stringField row i)).
Proof.
  destruct (add_items_spec metadata row 0 "" []) as (items & Heq & Hlen & Hall).
  exists items. unfold Row_record. rewrite Heq. repeat split; [done|].
  intros i md Hi. destruct (Hall i md Hi) as (item & ? & ? & Hv).
  exists item. simpl in Hv. rewrite Hv. repeat split; try done.
  - unfold field_value. by intros ->.
  - unfold field_value, field_to_value. by intros -> ->.
  - unfold field_value, field_to_value. by intros -> ->.
Qed.

(** *** The display value *)

Lemma add_items_sticky metadata row index d items :
  d ≠ "" →
  (∀ i md, metadata !! i = Some md → ¬ zero_filled md row (index + i)) →
  ∃ news,
    add_items metadata row index d items = items ++ news ∧
    Forall (λ item, item_display item = Some d) news.
Proof.
  intros Hd. revert index items.
  induction metadata as [|md metadata IH]; intros index items Hno.
  - exists []. simpl. by rewrite app_nil_r.
  - destruct (add_items_cons md metadata row index d items)
      as (item & d' & -> & _ & _ & Hdisplay & Hkeep).
    assert (d' = d) as ->.
    { apply Hkeep; [done|]. specialize (Hno 0%nat md eq_refl).
      by rewrite Nat.add_0_r in Hno. }
    destruct (IH (S index) (items ++ [item])) as (news & -> & Hall).
    { intros i md' Hi. specialize (Hno (S i) md' Hi).
      by rewrite Nat.add_succ_r in Hno. }
    exists (item :: news). rewrite <-app_assoc. split; [done|].
    by constructor.
Qed.

(** X8.  The display value is not reset from one column to the next: when
    the first item of a record has a display text that is not empty, every
    item of the record has that same display text, unless a later column is
    an unsigned integer with the zero-fill flag and a field that is not
    null. *)
Theorem display_value_of_first_column md metadata row first d :
  add_items (md :: metadata) row 0 "" [] !! 0%nat = Some first →
  item_display first = Some d →
  d ≠ "" →
  (∀ i md', metadata !! i = Some md' → ¬ zero_filled md' row (S i)) →
  Forall (λ item, item_display item = Some d)
    (add_items (md :: metadata) row 0 "" []).
Proof.
  intros Hfirst Hdisplay Hd Hno.
  destruct (add_items_cons md metadata row 0 "" [])
    as (item & d' & Heq & _ & _ & Hitem & _).
  rewrite Heq in Hfirst |- *. simpl in *.
  destruct (add_items_spec metadata row 1 d' [item]) as (news & Hnews & _).
  rewrite Hnews in Hfirst. simpl in Hfirst. injection Hfirst as <-.
  assert (d' = d) as -> by congruence.
  destruct (add_items_sticky metadata row 1 d [item] Hd) as (news' & -> & Hall).
  { intros i md' Hi. by apply Hno. }
  by constructor.
Qed.

Lemma to_int_small z : - 2 ^ 31 ≤ z < 2 ^ 31 → to_int z = z.
Proof.
  intros Hz. unfold to_int.
  destruct (decide (0 ≤ z)).
  - rewrite Z.mod_small by lia. destruct (Z.ltb_spec z (2 ^ 31)); lia.
  - replace (z mod 2 ^ 32) with (z + 2 ^ 32).
    + destruct (Z.ltb_spec (z + 2 ^ 32) (2 ^ 31)); lia.
    + symmetry. rewrite <-(Z_mod_plus_full z 1 (2 ^ 32)).
      rewrite Z.mod_small; lia.
Qed.

Lemma to_int_wrapped z : 2 ^ 31 ≤ z < 2 ^ 32 → to_int z = z - 2 ^ 32.
Proof.
  intros Hz. unfold to_int. rewrite Z.mod_small by lia.
  destruct (Z.ltb_spec z (2 ^ 31)); lia.
Qed.

(** Zeros in front of a text add their number to its length. *)
Lemma String_length_padded n (digits : string) :
  String.length (zeros n +:+ digits) = (n + String.length digits)%nat.
Proof. induction n as [|n IH]; simpl; [done|]. by rewrite IH. Qed.


(** X9.  For a field of an unsigned integer column with the zero-fill
    flag the display value is the decimal text of the number, with zeros in
    front up to the display length of the column; a text that is already
    that long is left as it is.  This holds for display lengths below
    [2^31]; from [2^31] more than the length of the text on, the count of
    zeros wraps around in its conversion to [int] and no zero is added. *)
Theorem zero_fill_display md row index d :
  cm_type md = UINT → flag1 md = true →
  let digits := pretty (uInt64Field row index) in
  let n := Z.of_nat (String.length digits) in
  n < 2 ^ 31 →
  (0 ≤ cm_length md < 2 ^ 31 →
     (field_to_value md row index d).2
       = zeros (Z.to_nat (cm_length md - n)) +:+ digits ∧
     Z.of_nat (String.length (field_to_value md row index d).2)
       = Z.max (cm_length md) n)
  ∧ (2 ^ 31 + n ≤ cm_length md < 2 ^ 32 →
     (field_to_value md row index d).2 = digits).
Proof.
  intros Htype Hflag digits n Hn. unfold field_to_value.
  rewrite Htype, Hflag. simpl. fold digits. fold n. split.
  - intros Hlen. rewrite to_int_small by lia.
    destruct (Z.ltb_spec 0 (cm_length md - n)).
    + split; [done|].
      rewrite String_length_padded. lia.
    + replace (Z.to_nat (cm_length md - n)) with 0%nat by lia.
      split; [done|]. lia.
  - intros Hlen. rewrite to_int_wrapped by lia.
    destruct (Z.ltb_spec 0 (cm_length md - n - 2 ^ 32)); [lia|done].
Qed.

(** *** What [fetch_all] returns *)

Lemma RowResult_fetch_all_rows md metadata res fuel :
  columnMetadata res = Some (md :: metadata) →
  (length (unread res) ≤ fuel)%nat →
  RowResult_fetch_all fuel [] res
  = Some (Ok (Array (map (Row_record (md :: metadata)) (unread res))),
          with_unread [] res).
Proof.
  intros Hmeta Hfuel.
  pose proof (RowResult_drains (md :: metadata) (unread res) res Hmeta
                ltac:(done)) as Hdrains.
  rewrite with_unread_unread in Hdrains.
  unfold RowResult_fetch_all. rewrite ensure_count_nil.
  apply fetch_all_body_complete; [done|]. by rewrite length_map.
Qed.

Lemma DocResult_fetch_all_rows md metadata res fuel :
  columnMetadata res = Some (md :: metadata) →
  Forall document_row (unread res) →
  (length (unread res) ≤ fuel)%nat →
  DocResult_fetch_all fuel [] res
  = Some (Ok (Array (map Doc_record (unread res))), with_unread [] res).
Proof.
  intros Hmeta Hdocs Hfuel.
  pose proof (DocResult_drains md metadata (unread res) res Hmeta Hdocs)
    as Hdrains.
  rewrite with_unread_unread in Hdrains.
  unfold DocResult_fetch_all. rewrite ensure_count_nil.
  apply fetch_all_body_complete; [done|]. by rewrite length_map.
Qed.

(** X10.  On a [RowResult] with at least one column, [fetch_one] returns
    the record of the first unread row and leaves the others, and
    [fetch_all] called next returns the records of those others, in their
    order, and leaves no row. *)
Theorem fetch_one_then_fetch_all md metadata row rows res fuel :
  columnMetadata res = Some (md :: metadata) →
  unread res = row :: rows →
  (length rows ≤ fuel)%nat →
  RowResult_fetch_one [] res
    = (Ok (Row_record (md :: metadata) row), with_unread rows res)
  ∧ RowResult_fetch_all fuel [] (with_unread rows res)
    = Some (Ok (Array (map (Row_record (md :: metadata)) rows)),
            with_unread [] res).
Proof.
  intros Hmeta Hunread Hfuel. split.
  - rewrite <-(with_unread_unread res), Hunread at 1.
    by apply RowResult_fetch_one_row.
  - by rewrite (RowResult_fetch_all_rows md metadata (with_unread rows res)).
Qed.

(** X11.  The same on a [DocResult] whose unread rows hold documents:
    [fetch_one] returns the first document, and [fetch_all] called next
    returns the remaining ones. *)
Theorem fetch_one_then_fetch_all_documents md metadata row rows res fuel :
  columnMetadata res = Some (md :: metadata) →
  unread res = row :: rows →
  Forall document_row (row :: rows) →
  (length rows ≤ fuel)%nat →
  DocResult_fetch_one [] res = (Ok (Doc_record row), with_unread rows res)
  ∧ DocResult_fetch_all fuel [] (with_unread rows res)
    = Some (Ok (Array (map Doc_record rows)), with_unread [] res).
Proof.
  intros Hmeta Hunread [Hrow Hrows]%Forall_cons Hfuel. split.
  - rewrite <-(with_unread_unread res), Hunread at 1.
    by apply (DocResult_fetch_one_row md metadata).
  - by rewrite (DocResult_fetch_all_rows md metadata (with_unread rows res)).
Qed.

(** X12.  A result without columns is read as empty: with column metadata
    that lists no column, and for a [DocResult] also without column
    metadata, [fetch_all] returns the empty array and reads no row,
    whatever rows are unread. *)
Theorem fetch_all_without_columns res fuel :
  (columnMetadata res = Some [] →
   RowResult_fetch_all fuel [] res = Some (Ok (Array []), res))
  ∧ (columnMetadata res = None ∨ columnMetadata res = Some [] →
     DocResult_fetch_all fuel [] res = Some (Ok (Array []), res)).
Proof.
  split.
  - intros Hmeta. unfold RowResult_fetch_all.
    rewrite ensure_count_nil, (RowResult_fetch_one_no_columns res Hmeta).
    by destruct fuel.
  - intros Hmeta. unfold DocResult_fetch_all.
    rewrite ensure_count_nil, (DocResult_fetch_one_no_columns res Hmeta).
    by destruct fuel.
Qed.

(** The loop of [DocResult::fetch_all] over rows that hold documents,
    followed by any row. *)
Lemma DocResult_loop_prefix md metadata good stop rest res fuel array :
  columnMetadata res = Some (md :: metadata) →
  Forall document_row good →
  (length good ≤ fuel)%nat →
  match DocResult_fetch_one [] (with_unread (good ++ stop :: rest) res) with
  | (Ok record, res1) =>
      fetch_loop (DocResult_fetch_one []) fuel record array res1
  | (Throw e, res1) => Some (Throw e, res1)
  end
  = match DocResult_fetch_one [] (with_unread (stop :: rest) res) with
    | (Ok record, res1) =>
        fetch_loop (DocResult_fetch_one []) (fuel - length good) record
          (array ++ map Doc_record good) res1
    | (Throw e, res1) => Some (Throw e, res1)
    end.
Proof.
  intros Hmeta Hgood. revert fuel array.
  induction Hgood as [|row good Hrow _ IH]; intros fuel array Hfuel; simpl.
  - by rewrite Nat.sub_0_r, app_nil_r.
  - destruct (DocResult_fetch_one_row md metadata row
                (good ++ stop :: rest) res Hmeta Hrow) as [-> Hvalid].
    destruct fuel as [|fuel]; simpl in Hfuel; [lia|].
    simpl. rewrite Hvalid.
    rewrite (IH fuel (array ++ [Doc_record row])) by lia.
    by rewrite <-app_assoc.
Qed.

(** X13.  When the text of a row does not parse, [DocResult::fetch_all]
    throws the translated exception of the parser; the documents read
    before are not returned, and those rows and the failing one have been
    consumed. *)
Theorem fetch_all_parse_failure md metadata good bad rest res e fuel :
  columnMetadata res = Some (md :: metadata) →
  unread res = good ++ bad :: rest →
  Forall document_row good →
  Value_parse (stringField bad 0) = Throw e →
  (length good ≤ fuel)%nat →
  DocResult_fetch_all fuel [] res
  = Some (Throw (translate_exception (get_function_name "fetchOne") e),
          with_unread rest res).
Proof.
  intros Hmeta Hunread Hgood Hparse Hfuel.
  unfold DocResult_fetch_all. rewrite ensure_count_nil.
  rewrite <-(with_unread_unread res), Hunread.
  rewrite (DocResult_loop_prefix md metadata) by done.
  destruct res. simpl in Hmeta. subst.
  unfold DocResult_fetch_one. rewrite ensure_count_nil. simpl.
  by rewrite Hparse.
Qed.

(** X14.  When the text of a row parses to the undefined value or to
    null, [DocResult::fetch_all] stops there: it returns the documents read
    before that row, and the rows after it stay unread. *)
Theorem fetch_all_stops_at_invalid_document
    md metadata good stop rest res document fuel :
  columnMetadata res = Some (md :: metadata) →
  unread res = good ++ stop :: rest →
  Forall document_row good →
  Value_parse (stringField stop 0) = Ok document →
  Value_is_valid document = false →
  (length good ≤ fuel)%nat →
  DocResult_fetch_all fuel [] res
  = Some (Ok (Array (map Doc_record good)), with_unread rest res).
Proof.
  intros Hmeta Hunread Hgood Hparse Hinvalid Hfuel.
  unfold DocResult_fetch_all. rewrite ensure_count_nil.
  rewrite <-(with_unread_unread res), Hunread.
  rewrite (DocResult_loop_prefix md metadata) by done.
  destruct res. simpl in Hmeta. subst.
  unfold DocResult_fetch_one. rewrite ensure_count_nil. simpl.
  rewrite Hparse.
  destruct (fuel - length good)%nat; simpl; by rewrite Hinvalid.
Qed.

(** *** Columns *)

Lemma get_member_columns (r : @RowResult Row double) :
  RowResult_get_member r "columns"
  = match get_columns r with
    | (Ok columns, r') => (Ok (Array columns), r')
    | (Throw e, r') => (Throw e, r')
    end
  ∧ SqlResult_get_member r "columns" = RowResult_get_member r "columns".
Proof.
  unfold SqlResult_get_member, RowResult_get_member.
  by repeat (case_decide; try done).
Qed.

Lemma get_member_columnCount (r : @RowResult Row double) :
  RowResult_get_member r "columnCount"
  = (Ok (Integer (get_column_count r)), r)
  ∧ SqlResult_get_member r "columnCount"
    = (Ok (Integer (get_column_count r)), r).
Proof.
  unfold SqlResult_get_member, RowResult_get_member.
  by repeat (case_decide; try done).
Qed.

Lemma get_member_columnNames (r : @RowResult Row double) :
  RowResult_get_member r "columnNames"
  = (Ok (Array (map Str (get_column_names r))), r)
  ∧ SqlResult_get_member r "columnNames"
    = (Ok (Array (map Str (get_column_names r))), r).
Proof.
  unfold SqlResult_get_member, RowResult_get_member.
  by repeat (case_decide; try done).
Qed.


(** X16.  For an integer column the type name is empty exactly when the
    display length of the column is none of 3, 4, 5, 6, 8, 9, 10, 11 and
    20: the [switch] over the length has no [default]. *)
Theorem integer_type_name_empty md :
  (cm_type md = SINT ∨ cm_type md = UINT) →
  (column_type md).1.1 = "" ↔ cm_length md ∉ integer_lengths.
Proof.
  intros Htype.
  assert ((column_type md).1.1 = integer_type_name md) as ->.
  { unfold column_type. by destruct Htype as [-> | ->]. }
  unfold integer_type_name, integer_lengths.
  rewrite !not_elem_of_cons.
  repeat match goal with
         | |- context [?a =? ?b] => destruct (Z.eqb_spec a b)
         end; simpl; split; try done; try lia;
    intros _; repeat split; try lia; apply not_elem_of_nil.
Qed.

Section next_data_set.
Variable nextDataSet : Result Row → bool * Result Row.

(** X17.  [next_data_set] does not reset the cache of [columns]: once the
    member [columns] has been read, it keeps returning the columns of the
    data set it was first read on, while [columnCount] and [columnNames]
    follow the metadata of the data set the result has moved to. *)
Theorem columns_stale_after_next_data_set
    (r r1 r2 : @RowResult Row double) columns more :
  RowResult_get_member r "columns" = (Ok (Array columns), r1) →
  SqlResult_next_data_set nextDataSet [] r1 = (Ok more, r2) →
  SqlResult_get_member r2 "columns" = (Ok (Array columns), r2)
  ∧ _result (row_base r2) = (nextDataSet (_result (row_base r))).2
  ∧ SqlResult_get_member r2 "columnCount"
    = (Ok (Integer (get_column_count r2)), r2)
  ∧ SqlResult_get_member r2 "columnNames"
    = (Ok (Array (map Str (get_column_names r2))), r2).
Proof.
  intros Hcolumns Hnext.
  assert (_columns r1 = Some columns ∧ row_base r1 = row_base r) as [Hc Hb].
  { revert Hcolumns. rewrite (proj1 (get_member_columns _)).
    unfold get_columns.
    destruct (_columns r) as [cached|] eqn:Hcached.
    - by intros [= <- <-].
    - destruct (columnMetadata _); [|done]. by intros [= <- <-]. }
  revert Hnext. unfold SqlResult_next_data_set.
  rewrite ensure_count_nil, Hb.
  destruct (nextDataSet (_result (row_base r))) as [flag res] eqn:Hres.
  intros [= <- <-].
  rewrite (proj2 (get_member_columns _)), (proj1 (get_member_columns _)),
    (proj2 (get_member_columnCount _)), (proj2 (get_member_columnNames _)).
  unfold get_columns. simpl. by rewrite Hc.
Qed.

End next_data_set.

(** *** Dumping as JSON *)

Section append_json.
Variable JSON_dumper : Type.
Variable deep_level : JSON_dumper → Z.
Variables start_object end_object : JSON_dumper → JSON_dumper.
Variable append_value : string → Value double → JSON_dumper → JSON_dumper.
Variable show_warnings : bool.

Local Abbreviation base_append_json :=
  (BaseResult_append_json JSON_dumper deep_level start_object end_object
     append_value show_warnings).
Local Abbreviation row_append_json :=
  (RowResult_append_json JSON_dumper deep_level start_object end_object
     append_value show_warnings).
Local Abbreviation doc_append_json :=
  (DocResult_append_json JSON_dumper deep_level start_object end_object
     append_value show_warnings).

(** The members written by [BaseResult::append_json] exist in every result
    class, so that the call returns. *)
Lemma BaseResult_append_json_returns (r : @RowResult Row double) dumper :
  returns (base_append_json (RowResult_member r) dumper)
  ∧ returns (base_append_json (BaseResult_get_member (row_base r)) dumper).
Proof.
  assert (∀ key, key = "executionTime" ∨ key = "warningCount"
                 ∨ key = "warnings" →
                 RowResult_member r key
                 = BaseResult_get_member (row_base r) key) as Hsame.
  { intros key Hkey. unfold RowResult_member, RowResult_get_member.
    destruct Hkey as [-> | [-> | ->]]; by repeat (case_decide; try done). }
  assert (returns (base_append_json (BaseResult_get_member (row_base r))
                     dumper)) as Hbase.
  { unfold BaseResult_append_json, append_member, BaseResult_get_member.
    repeat (case_decide; try done); simpl;
      destruct show_warnings; simpl; by eexists. }
  split; [|done].
  destruct Hbase as [out Hout]. exists out. rewrite <-Hout.
  unfold BaseResult_append_json, append_member.
  rewrite !Hsame by auto. done.
Qed.

(** X18.  Dumping a [RowResult] as JSON reads it to the end: the member
    [rows] is written after the members of [BaseResult] and holds the
    records of all the unread rows, and no row is left, so that
    [fetch_all], and a second dump, find nothing. *)
Theorem RowResult_append_json_exhausts
    md metadata res fuel get_member dumper written :
  columnMetadata res = Some (md :: metadata) →
  (length (unread res) ≤ fuel)%nat →
  let create_object := deep_level dumper =? 0 in
  base_append_json get_member
    (if create_object then start_object dumper else dumper) = Ok written →
  row_append_json fuel get_member dumper res
  = Some (Ok (let out :=
                append_value "rows"
                  (Array (map (Row_record (md :: metadata)) (unread res)))
                  written in
              if create_object then end_object out else out),
          with_unread [] res)
  ∧ row_append_json fuel get_member dumper (with_unread [] res)
    = Some (Ok (let out := append_value "rows" (Array []) written in
                if create_object then end_object out else out),
            with_unread [] res)
  ∧ RowResult_fetch_all fuel [] (with_unread [] res)
    = Some (Ok (Array []), with_unread [] res).
Proof.
  intros Hmeta Hfuel create_object Hbase.
  assert (RowResult_fetch_all fuel [] (with_unread [] res)
          = Some (Ok (Array []), with_unread [] res)) as Hempty.
  { rewrite (RowResult_fetch_all_rows md metadata); [done..|simpl; lia]. }
  unfold RowResult_append_json. fold create_object.
  by rewrite Hbase, Hempty, (RowResult_fetch_all_rows md metadata).
Qed.

(** X19.  Dumping a [DocResult] whose unread rows hold documents writes
    the member [documents], with all of them, before the members of
    [BaseResult], and leaves no row. *)
Theorem DocResult_append_json_exhausts
    md metadata res fuel get_member dumper written :
  columnMetadata res = Some (md :: metadata) →
  Forall document_row (unread res) →
  (length (unread res) ≤ fuel)%nat →
  base_append_json get_member
    (append_value "documents" (Array (map Doc_record (unread res)))
       (start_object dumper)) = Ok written →
  doc_append_json fuel get_member dumper res
  = Some (Ok (end_object written), with_unread [] res)
  ∧ DocResult_fetch_all fuel [] (with_unread [] res)
    = Some (Ok (Array []), with_unread [] res).
Proof.
  intros Hmeta Hdocs Hfuel Hbase. split.
  - unfold DocResult_append_json.
    by rewrite (DocResult_fetch_all_rows md metadata), Hbase.
  - rewrite (DocResult_fetch_all_rows md metadata);
      [done|done|constructor|simpl; lia].
Qed.

End append_json.

End facts.

End MysqlxMoreFacts.

(** ** More on result sets, with the clients of the examples *)

Module MysqlxMoreExamples.
Import Mysqlx TextClient MysqlxFacts MysqlxMore MysqlxMoreFacts MoreExamples.

Lemma display_value_of_first_column_witness :
  Forall (λ item, item_display item = Some "first")
    (add_items [text_column "a"; text_column "b"] ["first"; "second"] 0 "" []).
Proof.
  apply (display_value_of_first_column (text_column "a") [text_column "b"]
           ["first"; "second"]
           (mk_item "a" (Str "first") (Some "first")) "first").
  - reflexivity.
  - reflexivity.
  - discriminate.
  - intros i md' Hi [Htype _].
    destruct i as [|i]; [|done]. injection Hi as <-. discriminate.
Defined.

Lemma zero_fill_display_witness :
  (@field_to_value _ _ strict_client zerofill_column [] 0 "").2 = "00007".
Proof.
  refine (proj1 (proj1 (@zero_fill_display _ _ strict_client zerofill_column
                          [] 0%nat "" _ _ _) _)).
  - reflexivity.
  - reflexivity.
  - reflexivity.
  - simpl. lia.
Defined.

Lemma fetch_one_then_fetch_all_witness :
  RowResult_fetch_one [] two_documents
    = (Ok (Row_record [doc_column] ["{}"]), with_unread [["{}"]] two_documents)
  ∧ RowResult_fetch_all 1 [] (with_unread [["{}"]] two_documents)
    = Some (Ok (Array (map (Row_record [doc_column]) [["{}"]])),
            with_unread [] two_documents).
Proof.
  apply (fetch_one_then_fetch_all doc_column [] ["{}"] [["{}"]]
           two_documents 1).
  - reflexivity.
  - reflexivity.
  - simpl. lia.
Defined.

Lemma fetch_one_then_fetch_all_documents_witness :
  DocResult_fetch_one [] two_documents
    = (Ok (Doc_record ["{}"]), with_unread [["{}"]] two_documents)
  ∧ DocResult_fetch_all 1 [] (with_unread [["{}"]] two_documents)
    = Some (Ok (Array (map Doc_record [["{}"]])),
            with_unread [] two_documents).
Proof.
  apply (fetch_one_then_fetch_all_documents doc_column [] ["{}"] [["{}"]]
           two_documents 1).
  - reflexivity.
  - reflexivity.
  - repeat constructor; by exists (Str "{}").
  - simpl. lia.
Defined.

Lemma fetch_all_parse_failure_witness :
  @DocResult_fetch_all _ _ strict_client 1 [] (stops_in_the_middle "")
  = Some (Throw (runtime_error "fetchOne: Can't parse"),
          with_unread [["{}"]] (stops_in_the_middle "")).
Proof.
  apply (@fetch_all_parse_failure _ _ strict_client doc_column []
           [["{}"]] [""] [["{}"]] (stops_in_the_middle "")
           (runtime_error "Can't parse") 1).
  - reflexivity.
  - reflexivity.
  - repeat constructor. by exists (Str "{}").
  - reflexivity.
  - simpl. lia.
Defined.

Lemma fetch_all_stops_at_invalid_document_witness :
  DocResult_fetch_all 1 [] (stops_in_the_middle "null")
  = Some (Ok (Array (map Doc_record [["{}"]])),
          with_unread [["{}"]] (stops_in_the_middle "null")).
Proof.
  apply (fetch_all_stops_at_invalid_document doc_column []
           [["{}"]] ["null"] [["{}"]] (stops_in_the_middle "null") Null 1).
  - reflexivity.
  - reflexivity.
  - repeat constructor. by exists (Str "{}").
  - reflexivity.
  - reflexivity.
  - simpl. lia.
Defined.


Lemma integer_type_name_empty_witness :
  (column_type odd_column).1.1 = "".
Proof.
  apply (integer_type_name_empty odd_column).
  - by left.
  - unfold integer_lengths. simpl.
    rewrite !not_elem_of_cons. repeat split; try lia. apply not_elem_of_nil.
Defined.

Lemma columns_stale_after_next_data_set_witness :
  ∃ columns r2,
    length columns = 1%nat ∧
    SqlResult_get_member r2 "columns" = (Ok (Array columns), r2) ∧
    SqlResult_get_member r2 "columnCount" = (Ok (Integer 2), r2).
Proof.
  pose (r := mk_RowResult (mk_BaseResult two_documents 0) None
             : @RowResult (list string) ()).
  pose (r1 := mk_RowResult (mk_BaseResult two_documents 0)
                (Some (map column_of [doc_column]))
              : @RowResult (list string) ()).
  pose (r2 := mk_RowResult (mk_BaseResult second_data_set 0)
                (Some (map column_of [doc_column]))
              : @RowResult (list string) ()).
  destruct (columns_stale_after_next_data_set to_second_data_set r r1 r2
              (map column_of [doc_column]) (Bool true) eq_refl eq_refl)
    as (Hcolumns & _ & Hcount & _).
  exists (map column_of [doc_column]), r2.
  split; [reflexivity|]. split; [exact Hcolumns|exact Hcount].
Defined.

Lemma RowResult_append_json_exhausts_witness :
  ∃ out,
    RowResult_append_json (list json_event) open_objects
      (cons object_started) (cons object_ended)
      (λ key value, cons (value_appended key value)) false 2
      (RowResult_member (mk_RowResult (mk_BaseResult two_documents 0) None))
      [] two_documents
    = Some (Ok out, with_unread [] two_documents).
Proof.
  eexists.
  refine (proj1 (RowResult_append_json_exhausts (list json_event) open_objects
                   (cons object_started) (cons object_ended)
                   (λ key value, cons (value_appended key value)) false
                   doc_column [] two_documents 2 _ [] _ _ _ _)).
  - reflexivity.
  - simpl. lia.
  - reflexivity.
Defined.

Lemma DocResult_append_json_exhausts_witness :
  ∃ out,
    DocResult_append_json (list json_event) open_objects
      (cons object_started) (cons object_ended)
      (λ key value, cons (value_appended key value)) true 2
      (BaseResult_get_member (mk_BaseResult two_documents 0))
      [] two_documents
    = Some (Ok out, with_unread [] two_documents).
Proof.
  eexists.
  refine (proj1 (DocResult_append_json_exhausts (list json_event) open_objects
                   (cons object_started) (cons object_ended)
                   (λ key value, cons (value_appended key value)) true
                   doc_column [] two_documents 2 _ [] _ _ _ _ _)).
  - reflexivity.
  - repeat constructor; by exists (Str "{}").
  - simpl. lia.
  - reflexivity.
Defined.

End MysqlxMoreExamples.

(** ** The JavaScript shell *)

Module JscriptFacts.
Import Mysqlx Jscript.

Section facts.
Context {double : Type}.
Variable Interactive_input_state : Type.
Variable Input_ok : Interactive_input_state.
Variable JScript_context : Type.
Variable execute_interactive :
  string → JScript_context
  → outcome (Value double) * JScript_context * list string.
Variable execute :
  string → string → JScript_context
  → outcome (Value double * option string) * JScript_context * list string.

Local Abbreviation handle :=
  (handle_input Interactive_input_state Input_ok JScript_context
     execute_interactive execute).

(** X20.  Whenever [handle_input] returns, the input is complete
    ([Input_ok]) and the code is recorded as the last one handled.  Outside
    interactive mode a [shcore::Exception] never leaves the call, and when
    the context throws one the call returns the undefined value.  An
    exception that does leave the call, in either mode, leaves the state of
    the input and the record of the last code as they were.  What the call
    prints itself comes after the lines of the context and is the message
    of the error code, if [execute] reports one. *)
Theorem handle_input_outcomes code state interactive
    (sh : Shell_javascript JScript_context) :
  (∀ result state' sh',
     handle code state interactive sh = (Returned result, state', sh') →
     state' = Input_ok ∧ _last_handled _ sh' = code)
  ∧ (∀ what state' sh',
       handle code state false sh ≠ (Raised (Exception what), state', sh'))
  ∧ (∀ what js lines,
       execute code (get_input_source _ sh) (_js _ sh)
         = (Raised (Exception what), js, lines) →
       ∃ sh', handle code state false sh = (Returned Undefined, Input_ok, sh')
              ∧ printed _ sh' = printed _ sh ++ lines)
  ∧ (∀ t state' sh',
       handle code state interactive sh = (Raised t, state', sh') →
       state' = state ∧ _last_handled _ sh' = _last_handled _ sh)
  ∧ (∀ result err js lines,
       execute code (get_input_source _ sh) (_js _ sh)
         = (Returned (result, err), js, lines) →
       ∃ sh', handle code state false sh = (Returned result, Input_ok, sh')
              ∧ printed _ sh'
                = printed _ sh ++ lines ++ own_lines false err)
  ∧ (∀ result js lines,
       execute_interactive code (_js _ sh) = (Returned result, js, lines) →
       ∃ sh', handle code state true sh = (Returned result, Input_ok, sh')
              ∧ printed _ sh' = printed _ sh ++ lines).
Proof.
  unfold handle_input. repeat apply conj.
  - intros result state' sh'. destruct interactive.
    + destruct (execute_interactive code (_js _ sh)) as [[[v|t] js] lines];
        [|done].
      by intros [= <- <- <-].
    + destruct (execute code _ (_js _ sh)) as [[[[v err]|[w|w]] js] lines];
        [| |done].
      * by intros [= <- <- <-].
      * by intros [= <- <- <-].
  - intros what state' sh'.
    by destruct (execute code _ (_js _ sh)) as [[[[v err]|[w|w]] js] lines].
  - intros what js lines ->. by eexists.
  - intros t state' sh'. destruct interactive.
    + destruct (execute_interactive code (_js _ sh)) as [[[v|t'] js] lines];
        [done|].
      by intros [= <- <- <-].
    + destruct (execute code _ (_js _ sh)) as [[[[v err]|[w|w]] js] lines];
        try done.
      by intros [= <- <- <-].
  - intros result err js lines ->. eexists. split; [done|].
    destruct err as [message|]; simpl; [by rewrite <-app_assoc|].
    by rewrite app_nil_r.
  - intros result js lines ->. by eexists.
Qed.

End facts.

(** In script mode the exception of [throw] is swallowed, after the
    context has printed it, and the error of [warn] is printed. *)
Example handle_input_echo :
  let sh := mk_Shell_javascript () () "" "file.js" [] in
  handle_input () () () echo_execute_interactive echo_execute
    "throw" () false sh
  = (Returned Undefined, (),
     mk_Shell_javascript () () "throw" "file.js" ["Error: thrown"])
  ∧ handle_input () () () echo_execute_interactive echo_execute
      "warn" () false sh
    = (Returned (Str "warn"), (),
       mk_Shell_javascript () () "warn" "file.js" ["reported"])
  ∧ handle_input () () () echo_execute_interactive echo_execute
      "throw" () true sh
    = (Raised (Exception "thrown"), (),
       mk_Shell_javascript () () "" "file.js" ["Error: thrown"]).
Proof. repeat split. Qed.

End JscriptFacts.
